(** * An in-memory CRUD service for [User] records

    Shallow embedding of the user repository and of its HTTP handlers,
    followed by the properties of the repository (create / list / find /
    update / delete) and of the handlers' request validation and status
    mapping. *)

From Stdlib Require Import Ascii.
From stdpp Require Import gmap strings list fin_maps.

(* ===================================================================== *)
(** ** Data model *)
(* ===================================================================== *)

(** [type User struct { ID string; Name string; Age int }].  Go's [int] is
    modelled as [Z]; the only producer of ages, [strconv_Atoi] below, keeps
    them inside the machine range. *)
Record User := mkUser { ID : string; Name : string; Age : Z }.

(** The zero value [User{}]. *)
Definition User_zero : User := {| ID := ""; Name := ""; Age := 0 |}.

#[global] Instance User_eq_dec : EqDecision User.
Proof. solve_decision. Defined.

(** Go's [error] values are built here only by [errors.New]; the program
    observes them through [err != nil] and [err.Error()].  A nil error is
    [None]. *)
Inductive error := errors_New (text : string).

Definition Error (err : error) : string :=
  match err with errors_New text => text end.

(** The two failures of the repository, under the names of the
    specification. *)
Definition AlreadyExists : error := errors_New "user already exists".
Definition NotFound : error := errors_New "user not found".

(** [type UserRepository interface]: each method takes the receiver's
    state and returns the state after the call with the Go results. *)
Class UserRepository (R : Type) := {
  Create : User → R → R * option error;
  List : R → R * (list User * option error);
  Find : string → R → R * (User * option error);
  Update : User → R → R * option error;
  Delete : string → R → R * option error
}.

(* ===================================================================== *)
(** ** The in-memory repository *)
(* ===================================================================== *)

Module InMemoryUserRepository.

(** [struct { users map[string]User; mu sync.Mutex }].  Every method
    holds [mu] for its whole body, so under sequential execution a call
    is one transition of [users]; the mutex itself is not represented. *)
Record t := mk { users : gmap string User }.

Definition Create (user : User) (repo : t) : t * option error :=
  match users repo !! ID user with
  | Some _ => (repo, Some AlreadyExists)
  | None => (mk (<[ID user := user]> (users repo)), None)
  end.

(** The body of [for _, user := range repo.users], run over the entries
    in the order [kvs] in which the runtime hands them out; [userList]
    starts as the nil slice. *)
Definition List_loop (kvs : list (string * User)) : list User :=
  foldl (λ userList kv, userList ++ [kv.2]) [] kvs.

(** Ranging over a map that is not modified meanwhile yields each entry
    once, in an order that is not specified. *)
Definition range_order (m : gmap string User) (kvs : list (string * User)) : Prop :=
  kvs ≡ₚ map_to_list m.

Definition List_in (kvs : list (string * User)) (repo : t)
  : t * (list User * option error) :=
  (repo, (List_loop kvs, None)).

(** Every outcome [List] may have on [repo]. *)
Inductive List_returns (repo : t) : t * (list User * option error) → Prop :=
| List_ranges kvs :
    range_order (users repo) kvs →
    List_returns repo (List_in kvs repo).

(** [List] with one admissible iteration order, for evaluation. *)
Definition List (repo : t) : t * (list User * option error) :=
  List_in (map_to_list (users repo)) repo.

Definition Find (id : string) (repo : t) : t * (User * option error) :=
  match users repo !! id with
  | Some user => (repo, (user, None))
  | None => (repo, (User_zero, Some NotFound))
  end.

Definition Update (user : User) (repo : t) : t * option error :=
  match users repo !! ID user with
  | None => (repo, Some NotFound)
  | Some _ => (mk (<[ID user := user]> (users repo)), None)
  end.

Definition Delete (id : string) (repo : t) : t * option error :=
  match users repo !! id with
  | None => (repo, Some NotFound)
  | Some _ => (mk (delete id (users repo)), None)
  end.

End InMemoryUserRepository.

Definition NewInMemoryUserRepository : InMemoryUserRepository.t :=
  InMemoryUserRepository.mk ∅.

#[global] Instance InMemory_UserRepository : UserRepository InMemoryUserRepository.t := {|
  Create := InMemoryUserRepository.Create;
  List := InMemoryUserRepository.List;
  Find := InMemoryUserRepository.Find;
  Update := InMemoryUserRepository.Update;
  Delete := InMemoryUserRepository.Delete
|}.

(* ===================================================================== *)
(** ** Sequences of repository calls *)
(* ===================================================================== *)

(** One call on the repository, as a caller issues it. *)
Inductive Op :=
| OpCreate (user : User)
| OpList
| OpFind (id : string)
| OpUpdate (user : User)
| OpDelete (id : string).

(** The state after the call and the error it returned.  [List] and
    [Find] leave the state alone, and the error of [List] does not depend
    on the iteration order. *)
Definition call (op : Op) (repo : InMemoryUserRepository.t)
  : InMemoryUserRepository.t * option error :=
  match op with
  | OpCreate user => InMemoryUserRepository.Create user repo
  | OpList => let '(repo', (_, err)) := InMemoryUserRepository.List repo in (repo', err)
  | OpFind id => let '(repo', (_, err)) := InMemoryUserRepository.Find id repo in (repo', err)
  | OpUpdate user => InMemoryUserRepository.Update user repo
  | OpDelete id => InMemoryUserRepository.Delete id repo
  end.

(** Sequential execution: the calls one after the other, with the log of
    what each returned. *)
Fixpoint run (ops : list Op) (repo : InMemoryUserRepository.t)
  : InMemoryUserRepository.t * list (Op * option error) :=
  match ops with
  | [] => (repo, [])
  | op :: ops' =>
      let '(repo1, err) := call op repo in
      let '(repo2, log) := run ops' repo1 in
      (repo2, (op, err) :: log)
  end.

Definition Create_succeeded (entry : Op * option error) : bool :=
  match entry with (OpCreate _, None) => true | _ => false end.

Definition Delete_succeeded (entry : Op * option error) : bool :=
  match entry with (OpDelete _, None) => true | _ => false end.

Definition count_of (p : Op * option error → bool) (log : list (Op * option error)) : nat :=
  length (filter (λ entry, p entry = true) log).

(** The states the store can be in: the new store, and whatever a call
    leaves behind. *)
Inductive reachable : InMemoryUserRepository.t → Prop :=
| reachable_new : reachable NewInMemoryUserRepository
| reachable_call op repo : reachable repo → reachable (call op repo).1.

(** Every key is the [ID] of the record stored under it. *)
Definition keyed_by_ID (repo : InMemoryUserRepository.t) : Prop :=
  ∀ k user, InMemoryUserRepository.users repo !! k = Some user → ID user = k.

(* ===================================================================== *)
(** ** The HTTP layer *)
(* ===================================================================== *)

(** [url.Values], the parsed query string: [map[string][]string]. *)
Definition Values_Get (v : gmap string (list string)) (key : string) : string :=
  match v !! key with
  | Some (first :: _) => first
  | _ => ""
  end.

(** The part of [*http.Request] the handlers read: [r.URL.Query()]. *)
Record Request := mkRequest { Query : gmap string (list string) }.

(** [strconv.Atoi] on a 64-bit target: an optional sign, then one or more
    decimal digits, the value fitting [int]; anything else is an error.
    The digits are accumulated as in [strconv.ParseUint] in base 10, which
    reports the first offending byte or the first overflow of [uint64]. *)
Definition intSize : Z := 64.
Definition maxUint64 : Z := 2 ^ 64 - 1.

Inductive NumError := ErrSyntax | ErrRange.

Definition digit_value (ch : Ascii.ascii) : option Z :=
  let c := Z.of_N (Ascii.N_of_ascii ch) in
  if bool_decide (48 ≤ c ≤ 57)%Z then Some (c - 48)%Z else None.

Fixpoint ParseUint_digits (n : Z) (s : string) : Z + NumError :=
  match s with
  | EmptyString => inl n
  | String ch s' =>
      match digit_value ch with
      | None => inr ErrSyntax
      | Some d =>
          if bool_decide (maxUint64 `div` 10 + 1 ≤ n)%Z then inr ErrRange
          else
            let n1 := (n * 10 + d)%Z in
            if bool_decide (maxUint64 < n1)%Z then inr ErrRange
            else ParseUint_digits n1 s'
      end
  end.

Definition split_sign (s : string) : bool * string :=
  match s with
  | String "-"%char s' => (true, s')
  | String "+"%char s' => (false, s')
  | _ => (false, s)
  end.

Definition strconv_Atoi (s : string) : Z + NumError :=
  let '(neg, digits) := split_sign s in
  match digits with
  | EmptyString => inr ErrSyntax
  | _ =>
      match ParseUint_digits 0 digits with
      | inr err => inr err
      | inl un =>
          let cutoff := (2 ^ (intSize - 1))%Z in
          if neg
          then (if bool_decide (cutoff < un)%Z then inr ErrRange else inl (- un)%Z)
          else (if bool_decide (cutoff ≤ un)%Z then inr ErrRange else inl un)
      end
  end.

Definition StatusOK : Z := 200.
Definition StatusCreated : Z := 201.
Definition StatusBadRequest : Z := 400.
Definition StatusNotFound : Z := 404.
Definition StatusInternalServerError : Z := 500.

(** What a handler leaves in the [http.ResponseWriter].  [ErrorText msg]
    is the body [http.Error] writes for the message [msg] (the text, as
    one line); [NoBody] is a response to which nothing was written. *)
Inductive Body :=
| NoBody
| ErrorText (msg : string)
| JsonUser (user : User)
| JsonUsers (users : list User).

Record Response := mkResponse { status : Z; body : Body }.

Definition http_Error (msg : string) (code : Z) : Response :=
  {| status := code; body := ErrorText msg |}.

Definition WriteHeader (code : Z) : Response :=
  {| status := code; body := NoBody |}.

(** [json.NewEncoder(w).Encode(v)] on a fresh writer: status 200. *)
Definition Encode (payload : Body) : Response :=
  {| status := StatusOK; body := payload |}.

Section Handlers.

Context {R : Type} `{UserRepository R}.

Definition createUserHandler (repo : R) (r : Request) : R * Response :=
  let id := Values_Get (Query r) "id" in
  let name := Values_Get (Query r) "name" in
  let ageStr := Values_Get (Query r) "age" in
  if bool_decide (id = "") || bool_decide (name = "") || bool_decide (ageStr = "")
  then (repo, http_Error "Missing parameters" StatusBadRequest)
  else
    match strconv_Atoi ageStr with
    | inr _ => (repo, http_Error "Invalid age parameter" StatusBadRequest)
    | inl age =>
        let user := {| ID := id; Name := name; Age := age |} in
        match Create user repo with
        | (repo', Some err) => (repo', http_Error (Error err) StatusInternalServerError)
        | (repo', None) => (repo', WriteHeader StatusCreated)
        end
    end.

Definition listUsersHandler (repo : R) (r : Request) : R * Response :=
  match List repo with
  | (repo', (_, Some err)) => (repo', http_Error (Error err) StatusInternalServerError)
  | (repo', (users, None)) => (repo', Encode (JsonUsers users))
  end.

Definition findUserHandler (repo : R) (r : Request) : R * Response :=
  let id := Values_Get (Query r) "id" in
  if bool_decide (id = "")
  then (repo, http_Error "Missing id parameter" StatusBadRequest)
  else
    match Find id repo with
    | (repo', (_, Some err)) => (repo', http_Error (Error err) StatusNotFound)
    | (repo', (user, None)) => (repo', Encode (JsonUser user))
    end.

Definition updateUserHandler (repo : R) (r : Request) : R * Response :=
  let id := Values_Get (Query r) "id" in
  let name := Values_Get (Query r) "name" in
  let ageStr := Values_Get (Query r) "age" in
  if bool_decide (id = "") || bool_decide (name = "") || bool_decide (ageStr = "")
  then (repo, http_Error "Missing parameters" StatusBadRequest)
  else
    match strconv_Atoi ageStr with
    | inr _ => (repo, http_Error "Invalid age parameter" StatusBadRequest)
    | inl age =>
        let user := {| ID := id; Name := name; Age := age |} in
        match Update user repo with
        | (repo', Some err) => (repo', http_Error (Error err) StatusInternalServerError)
        | (repo', None) => (repo', WriteHeader StatusOK)
        end
    end.

Definition deleteUserHandler (repo : R) (r : Request) : R * Response :=
  let id := Values_Get (Query r) "id" in
  if bool_decide (id = "")
  then (repo, http_Error "Missing id parameter" StatusBadRequest)
  else
    match Delete id repo with
    | (repo', Some err) => (repo', http_Error (Error err) StatusInternalServerError)
    | (repo', None) => (repo', WriteHeader StatusOK)
    end.

End Handlers.

(** A repository that only records the calls made on it, and lets each
    one succeed: it shows whether a handler reached the repository. *)
#[local] Instance Recorder : UserRepository (list Op) := {|
  Create user calls := (calls ++ [OpCreate user], None);
  List calls := (calls ++ [OpList], ([], None));
  Find id calls := (calls ++ [OpFind id], (User_zero, None));
  Update user calls := (calls ++ [OpUpdate user], None);
  Delete id calls := (calls ++ [OpDelete id], None)
|}.

Definition mkQuery (id name age : string) : Request :=
  {| Query := {[ "id" := [id]; "name" := [name]; "age" := [age] ]} |}.

(* ===================================================================== *)
(** ** Worked values *)
(* ===================================================================== *)

Definition alice : User := {| ID := "1"; Name := "Alice"; Age := 30 |}.
Definition bob : User := {| ID := "1"; Name := "Bob"; Age := 31 |}.
Definition carol : User := {| ID := "2"; Name := "Carol"; Age := 27 |}.

Definition just_alice : InMemoryUserRepository.t :=
  InMemoryUserRepository.mk {[ "1" := alice ]}.

(** Nine calls; the second creation and the first deletion fail. *)
Definition busy_day : list Op :=
  [OpCreate alice; OpCreate bob; OpCreate carol; OpUpdate bob; OpDelete "3";
   OpDelete "1"; OpFind "1"; OpList; OpCreate alice].

(* ===================================================================== *)
(** ** The routes of [main], and repositories for observing handlers *)
(* ===================================================================== *)

(** The id a call is about; [List] is about none. *)
Definition op_id (op : Op) : option string :=
  match op with
  | OpCreate user => Some (ID user)
  | OpList => None
  | OpFind id => Some id
  | OpUpdate user => Some (ID user)
  | OpDelete id => Some id
  end.

(** The five registrations of [main]: ["/create"], ["/list"], ["/find"],
    ["/update"], ["/delete"].  Which registration a request path selects
    is the business of [net/http]; [serve] starts from the selected one. *)
Inductive Route := RouteCreate | RouteList | RouteFind | RouteUpdate | RouteDelete.

Definition serve {R : Type} `{UserRepository R} (route : Route) (repo : R) (r : Request)
  : R * Response :=
  match route with
  | RouteCreate => createUserHandler repo r
  | RouteList => listUsersHandler repo r
  | RouteFind => findUserHandler repo r
  | RouteUpdate => updateUserHandler repo r
  | RouteDelete => deleteUserHandler repo r
  end.

(** The route whose handler issues a given call. *)
Definition route_of_op (op : Op) : Route :=
  match op with
  | OpCreate _ => RouteCreate
  | OpList => RouteList
  | OpFind _ => RouteFind
  | OpUpdate _ => RouteUpdate
  | OpDelete _ => RouteDelete
  end.

(** A repository that records each call and answers it as [answer] says,
    with an error or without: whatever an implementation of the interface
    may answer, the handler's calls show in the record. *)
Definition Scripted (answer : Op → option error) : UserRepository (list Op) := {|
  Create user calls := (calls ++ [OpCreate user], answer (OpCreate user));
  List calls := (calls ++ [OpList], ([], answer OpList));
  Find id calls := (calls ++ [OpFind id], (User_zero, answer (OpFind id)));
  Update user calls := (calls ++ [OpUpdate user], answer (OpUpdate user));
  Delete id calls := (calls ++ [OpDelete id], answer (OpDelete id))
|}.

(** The states of the in-memory store that HTTP traffic can produce: the
    store [main] creates, and what serving a request leaves behind. *)
Inductive served : InMemoryUserRepository.t → Prop :=
| served_new : served NewInMemoryUserRepository
| served_request route repo r : served repo → served (serve route repo r).1.

(** What the validation of the create and update handlers lets through. *)
Definition validated (user : User) : Prop :=
  ID user ≠ "" ∧ Name user ≠ "" ∧ (- 2 ^ 63 ≤ Age user < 2 ^ 63)%Z.

(** The map entry a record is stored as. *)
Definition entry_of (u : User) : string * User := (ID u, u).

Definition dave : User := {| ID := "4"; Name := "Dave"; Age := 52 |}.

(* ===================================================================== *)
(** ** Evaluation on sample inputs *)
(* ===================================================================== *)

Example Atoi_30 : strconv_Atoi "30" = inl 30%Z. Proof. vm_compute. reflexivity. Qed.
Example Atoi_m7 : strconv_Atoi "-007" = inl (-7)%Z. Proof. vm_compute. reflexivity. Qed.
Example Atoi_abc : strconv_Atoi "abc" = inr ErrSyntax. Proof. vm_compute. reflexivity. Qed.
Example Atoi_plus : strconv_Atoi "+" = inr ErrSyntax. Proof. vm_compute. reflexivity. Qed.
Example Atoi_big : strconv_Atoi "9223372036854775808" = inr ErrRange. Proof. vm_compute. reflexivity. Qed.
Example Atoi_long : strconv_Atoi "99999999999999999999999x" = inr ErrRange. Proof. vm_compute. reflexivity. Qed.
Example Atoi_empty : strconv_Atoi "" = inr ErrSyntax. Proof. vm_compute. reflexivity. Qed.
Example Atoi_max : strconv_Atoi "9223372036854775807" = inl 9223372036854775807%Z. Proof. vm_compute. reflexivity. Qed.
Example Atoi_min1 : strconv_Atoi "-9223372036854775809" = inr ErrRange. Proof. vm_compute. reflexivity. Qed.
Example Atoi_min : strconv_Atoi "-9223372036854775808" = inl (-9223372036854775808)%Z. Proof. vm_compute. reflexivity. Qed.
Example create_alice :
  createUserHandler NewInMemoryUserRepository (mkQuery "1" "Alice" "30")
  = (InMemoryUserRepository.mk {[ "1" := mkUser "1" "Alice" 30 ]}, WriteHeader StatusCreated).
Proof. vm_compute. reflexivity. Qed.

(** Create, find, update, find, delete, find on one id. *)
Example one_id_lifecycle :
  let created := createUserHandler NewInMemoryUserRepository (mkQuery "1" "Alice" "30") in
  let found := findUserHandler created.1 (mkQuery "1" "" "") in
  let updated := updateUserHandler found.1 (mkQuery "1" "Bob" "31") in
  let found_again := findUserHandler updated.1 (mkQuery "1" "" "") in
  let deleted := deleteUserHandler found_again.1 (mkQuery "1" "" "") in
  let gone := findUserHandler deleted.1 (mkQuery "1" "" "") in
  [created.2; found.2; updated.2; found_again.2; deleted.2; gone.2]
  = [WriteHeader 201; Encode (JsonUser alice); WriteHeader 200;
     Encode (JsonUser bob); WriteHeader 200; http_Error "user not found" 404].
Proof. vm_compute. reflexivity. Qed.

(* ===================================================================== *)
(** ** The repository: single calls *)
(* ===================================================================== *)

Import InMemoryUserRepository (users, mk, List_loop, List_in, List_returns, range_order).

Section Repository.

Implicit Types (repo : InMemoryUserRepository.t) (user u : User) (id k : string).

Lemma Create_fresh repo u :
  users repo !! ID u = None →
  InMemoryUserRepository.Create u repo = (mk (<[ID u := u]> (users repo)), None).
Proof. intros Hfree. unfold InMemoryUserRepository.Create. by rewrite Hfree. Qed.

Lemma Create_taken repo u stored :
  users repo !! ID u = Some stored →
  InMemoryUserRepository.Create u repo = (repo, Some AlreadyExists).
Proof. intros Hin. unfold InMemoryUserRepository.Create. by rewrite Hin. Qed.

Lemma Find_present repo id u :
  users repo !! id = Some u →
  InMemoryUserRepository.Find id repo = (repo, (u, None)).
Proof. intros Hin. unfold InMemoryUserRepository.Find. by rewrite Hin. Qed.

Lemma Find_absent repo id :
  users repo !! id = None →
  InMemoryUserRepository.Find id repo = (repo, (User_zero, Some NotFound)).
Proof. intros Hout. unfold InMemoryUserRepository.Find. by rewrite Hout. Qed.

Lemma Update_present repo u stored :
  users repo !! ID u = Some stored →
  InMemoryUserRepository.Update u repo = (mk (<[ID u := u]> (users repo)), None).
Proof. intros Hin. unfold InMemoryUserRepository.Update. by rewrite Hin. Qed.

Lemma Update_absent repo u :
  users repo !! ID u = None →
  InMemoryUserRepository.Update u repo = (repo, Some NotFound).
Proof. intros Hout. unfold InMemoryUserRepository.Update. by rewrite Hout. Qed.

Lemma Delete_present repo id stored :
  users repo !! id = Some stored →
  InMemoryUserRepository.Delete id repo = (mk (delete id (users repo)), None).
Proof. intros Hin. unfold InMemoryUserRepository.Delete. by rewrite Hin. Qed.

Lemma Delete_absent repo id :
  users repo !! id = None →
  InMemoryUserRepository.Delete id repo = (repo, Some NotFound).
Proof. intros Hout. unfold InMemoryUserRepository.Delete. by rewrite Hout. Qed.

(** A successful [Delete] is one that found the key. *)
Lemma Delete_ok_inv repo id repo' :
  InMemoryUserRepository.Delete id repo = (repo', None) →
  is_Some (users repo !! id) ∧ repo' = mk (delete id (users repo)).
Proof.
  unfold InMemoryUserRepository.Delete.
  destruct (users repo !! id) as [stored|] eqn:Hk; intros [= <-]; eauto.
Qed.

End Repository.

(** C1. When [u.ID] is not a key of the map, [Create u] returns nil and
    the map becomes the old one with the single new entry [u.ID ↦ u]
    (every other key as before, one entry more); [Find u.ID] on that state
    returns nil and the record [u] itself. *)
Theorem Create_then_Find (repo : InMemoryUserRepository.t) (u : User) :
  users repo !! ID u = None →
  ∃ repo',
    InMemoryUserRepository.Create u repo = (repo', None)
    ∧ users repo' = <[ID u := u]> (users repo)
    ∧ (∀ k, k ≠ ID u → users repo' !! k = users repo !! k)
    ∧ size (users repo') = S (size (users repo))
    ∧ InMemoryUserRepository.Find (ID u) repo' = (repo', (u, None)).
Proof.
  intros Hfree. eexists. split; [by apply Create_fresh|]. simpl.
  split; [done|]. split; [|split].
  - intros k Hk. by rewrite lookup_insert_ne.
  - by apply map_size_insert_None.
  - apply Find_present. simpl. apply lookup_insert_eq.
Qed.

Lemma Create_then_Find_witness :
  users NewInMemoryUserRepository !! ID alice = None
  ∧ ∃ repo',
      InMemoryUserRepository.Create alice NewInMemoryUserRepository = (repo', None)
      ∧ users repo' = <[ID alice := alice]> (users NewInMemoryUserRepository)
      ∧ (∀ k, k ≠ ID alice → users repo' !! k = users NewInMemoryUserRepository !! k)
      ∧ size (users repo') = S (size (users NewInMemoryUserRepository))
      ∧ InMemoryUserRepository.Find (ID alice) repo' = (repo', (alice, None)).
Proof.
  split; [reflexivity|].
  apply (Create_then_Find NewInMemoryUserRepository alice). reflexivity.
Defined.

(** C2. When the map already has a record under [k], [Create] of any
    record whose [ID] is [k] returns the already-exists error and the state
    it leaves is the state it found: the record under [k] and the whole
    map are unchanged. *)
Theorem Create_duplicate_rejected (repo : InMemoryUserRepository.t) (k : string)
    (stored u : User) :
  users repo !! k = Some stored →
  ID u = k →
  InMemoryUserRepository.Create u repo = (repo, Some AlreadyExists)
  ∧ Error AlreadyExists = "user already exists"
  ∧ users (InMemoryUserRepository.Create u repo).1 !! k = Some stored
  ∧ users (InMemoryUserRepository.Create u repo).1 = users repo.
Proof.
  intros Hin <-. rewrite (Create_taken _ _ _ Hin). by simpl.
Qed.

Lemma Create_duplicate_rejected_witness :
  users just_alice !! "1" = Some alice
  ∧ ID bob = "1"
  ∧ InMemoryUserRepository.Create bob just_alice = (just_alice, Some AlreadyExists)
  ∧ Error AlreadyExists = "user already exists"
  ∧ users (InMemoryUserRepository.Create bob just_alice).1 !! "1" = Some alice
  ∧ users (InMemoryUserRepository.Create bob just_alice).1 = users just_alice.
Proof.
  split; [reflexivity|]. split; [reflexivity|].
  apply (Create_duplicate_rejected just_alice "1" alice bob); reflexivity.
Defined.

(** C3. For an id that is not a key of the map, [Find] returns the
    not-found error (with the zero record), [Update] of any record carrying
    that id returns the not-found error, and [Delete] returns the not-found
    error; none of them changes the state. *)
Theorem missing_id_NotFound (repo : InMemoryUserRepository.t) (id : string) :
  users repo !! id = None →
  InMemoryUserRepository.Find id repo = (repo, (User_zero, Some NotFound))
  ∧ (∀ u, ID u = id → InMemoryUserRepository.Update u repo = (repo, Some NotFound))
  ∧ InMemoryUserRepository.Delete id repo = (repo, Some NotFound)
  ∧ Error NotFound = "user not found".
Proof.
  intros Hout. split; [by apply Find_absent|]. split; [|split; [by apply Delete_absent|done]].
  intros u <-. by apply Update_absent.
Qed.

Lemma missing_id_NotFound_witness :
  users just_alice !! "2" = None
  ∧ InMemoryUserRepository.Find "2" just_alice = (just_alice, (User_zero, Some NotFound))
  ∧ (∀ u, ID u = "2" → InMemoryUserRepository.Update u just_alice = (just_alice, Some NotFound))
  ∧ InMemoryUserRepository.Delete "2" just_alice = (just_alice, Some NotFound)
  ∧ Error NotFound = "user not found".
Proof.
  split; [reflexivity|]. apply (missing_id_NotFound just_alice "2"). reflexivity.
Defined.

(** C4. If [Delete id] returns nil, then [Find id] on the state it leaves
    returns the not-found error. *)
Theorem Delete_then_Find (repo repo' : InMemoryUserRepository.t) (id : string) :
  InMemoryUserRepository.Delete id repo = (repo', None) →
  InMemoryUserRepository.Find id repo' = (repo', (User_zero, Some NotFound)).
Proof.
  intros [_ ->]%Delete_ok_inv. apply Find_absent. simpl. apply lookup_delete_eq.
Qed.

Lemma Delete_then_Find_witness :
  InMemoryUserRepository.Delete "1" just_alice = (NewInMemoryUserRepository, None)
  ∧ InMemoryUserRepository.Find "1" NewInMemoryUserRepository
    = (NewInMemoryUserRepository, (User_zero, Some NotFound)).
Proof.
  split; [reflexivity|].
  apply (Delete_then_Find just_alice NewInMemoryUserRepository "1"). reflexivity.
Defined.

(** C6. When a record is stored under [k] and the incoming record [u] has
    [u.ID = k], [Update u] returns nil, the record stored under [k]
    afterwards is [u] itself, whatever was stored before (so it agrees with
    [u] on [ID], [Name] and [Age] and keeps nothing of the old record), and
    every other key maps to what it mapped to before. *)
Theorem Update_overwrites (repo : InMemoryUserRepository.t) (k : string) (stored u : User) :
  users repo !! k = Some stored →
  ID u = k →
  ∃ repo',
    InMemoryUserRepository.Update u repo = (repo', None)
    ∧ users repo' !! k = Some u
    ∧ (∀ k', k' ≠ k → users repo' !! k' = users repo !! k')
    ∧ dom (users repo') = dom (users repo).
Proof.
  intros Hin <-. eexists. split; [by eapply Update_present|]. simpl.
  split; [apply lookup_insert_eq|]. split.
  - intros k' Hk'. by rewrite lookup_insert_ne.
  - apply dom_insert_lookup_L. eauto.
Qed.

Lemma Update_overwrites_witness :
  users just_alice !! "1" = Some alice
  ∧ ID bob = "1"
  ∧ ∃ repo',
      InMemoryUserRepository.Update bob just_alice = (repo', None)
      ∧ users repo' !! "1" = Some bob
      ∧ (∀ k', k' ≠ "1" → users repo' !! k' = users just_alice !! k')
      ∧ dom (users repo') = dom (users just_alice).
Proof.
  split; [reflexivity|]. split; [reflexivity|].
  apply (Update_overwrites just_alice "1" alice bob); reflexivity.
Defined.

(* ===================================================================== *)
(** ** The repository: [List] *)
(* ===================================================================== *)

Section Listing.

Implicit Types (repo : InMemoryUserRepository.t) (kvs : list (string * User)).

(** The loop appends the value of each entry it is handed. *)
Lemma List_loop_from (acc : list User) kvs :
  foldl (λ userList kv, userList ++ [kv.2]) acc kvs = acc ++ kvs.*2.
Proof.
  revert acc. induction kvs as [|kv kvs IH]; intros acc; simpl.
  - by rewrite app_nil_r.
  - rewrite IH. by rewrite <- app_assoc.
Qed.

Lemma List_loop_values kvs : List_loop kvs = kvs.*2.
Proof. unfold List_loop. by rewrite List_loop_from. Qed.

Lemma List_returns_inv repo res :
  List_returns repo res →
  ∃ kvs, kvs ≡ₚ map_to_list (users repo) ∧ res = (repo, (kvs.*2, None)).
Proof.
  intros [kvs Hkvs]. exists kvs. split; [done|].
  unfold List_in. by rewrite List_loop_values.
Qed.

(** Any order of the entries is a possible outcome. *)
Lemma List_returns_any_order repo (userList : list User) :
  userList ≡ₚ (map_to_list (users repo)).*2 →
  List_returns repo (repo, (userList, None)).
Proof.
  intros Hperm.
  apply Permutation_map_inv in Hperm as (kvs & -> & Hkvs).
  change (map snd kvs) with (kvs.*2). rewrite <- List_loop_values.
  apply (InMemoryUserRepository.List_ranges repo kvs).
  unfold range_order. by symmetry.
Qed.

Lemma List_returns_length repo repo' userList err :
  List_returns repo (repo', (userList, err)) →
  length userList = size (users repo).
Proof.
  intros (kvs & Hkvs & [= -> -> ->])%List_returns_inv.
  by rewrite length_fmap, Hkvs, length_map_to_list.
Qed.

(** Entries handed out once each: no key twice, and exactly the entries
    of the map. *)
Lemma range_order_entries (m : gmap string User) kvs :
  range_order m kvs →
  NoDup kvs.*1 ∧ ∀ k user, (k, user) ∈ kvs ↔ m !! k = Some user.
Proof.
  unfold range_order. intros Hkvs. split.
  - rewrite Hkvs. apply NoDup_fst_map_to_list.
  - intros k user. by rewrite Hkvs, elem_of_map_to_list.
Qed.

End Listing.

(** C5. [List] always returns: the call has an outcome, every outcome has
    a nil error and leaves the state alone, and the returned slice is the
    values of an enumeration of the map's entries in which no key occurs
    twice and which has exactly the entries of the map, so each stored
    record is there once (as many elements as entries, and no element
    twice when keys are ids).  Any order of the entries can come out.  On
    the empty store the slice is empty. *)
Theorem List_never_fails (repo : InMemoryUserRepository.t) :
  List_returns repo (InMemoryUserRepository.List repo)
  ∧ (∀ res, List_returns repo res →
       ∃ userList kvs,
         res = (repo, (userList, None))
         ∧ userList = kvs.*2
         ∧ NoDup kvs.*1
         ∧ (∀ k user, (k, user) ∈ kvs ↔ users repo !! k = Some user)
         ∧ length userList = size (users repo)
         ∧ (keyed_by_ID repo → NoDup userList)
         ∧ (users repo = ∅ → userList = []))
  ∧ (∀ userList, userList ≡ₚ (map_to_list (users repo)).*2 →
       List_returns repo (repo, (userList, None))).
Proof.
  split; [|split].
  - apply InMemoryUserRepository.List_ranges. by unfold range_order.
  - intros res (kvs & Hkvs & ->)%List_returns_inv.
    destruct (range_order_entries _ _ Hkvs) as [Hnodup Hentries].
    exists kvs.*2, kvs. repeat split; try done.
    + by apply Hentries.
    + by apply Hentries.
    + by rewrite length_fmap, Hkvs, length_map_to_list.
    + intros Hkeyed. apply (NoDup_fmap_1 ID).
      replace (ID <$> kvs.*2) with kvs.*1; [done|].
      rewrite <- list_fmap_compose. apply list_fmap_ext.
      intros i [k user] Hi. simpl. symmetry. apply Hkeyed, Hentries.
      eapply list_elem_of_lookup_2, Hi.
    + intros Hempty. rewrite Hempty, map_to_list_empty in Hkvs.
      apply Permutation_nil_r in Hkvs. by rewrite Hkvs.
  - intros userList Hperm.
    apply Permutation_map_inv in Hperm as (kvs & -> & Hkvs).
    change (map snd kvs) with (kvs.*2). rewrite <- List_loop_values. apply (InMemoryUserRepository.List_ranges repo kvs).
    unfold range_order. by symmetry.
Qed.

Lemma List_never_fails_witness :
  List_returns just_alice (just_alice, ([alice], None))
  ∧ ∃ userList kvs,
      (just_alice, ([alice], @None error)) = (just_alice, (userList, None))
      ∧ userList = kvs.*2
      ∧ NoDup kvs.*1
      ∧ (∀ k user, (k, user) ∈ kvs ↔ users just_alice !! k = Some user)
      ∧ length userList = size (users just_alice)
      ∧ (keyed_by_ID just_alice → NoDup userList)
      ∧ (users just_alice = ∅ → userList = []).
Proof.
  destruct (List_never_fails just_alice) as (_ & Hall & Hany).
  assert (List_returns just_alice (just_alice, ([alice], None))) as Hret.
  { apply Hany. vm_compute. reflexivity. }
  split; [exact Hret|]. apply Hall. exact Hret.
Defined.

(* ===================================================================== *)
(** ** The repository: sequences of calls *)
(* ===================================================================== *)

Section Sequences.

Implicit Types (repo : InMemoryUserRepository.t) (ops : list Op)
  (log : list (Op * option error)).

Lemma count_of_cons p entry log :
  count_of p (entry :: log) = (if p entry then 1 else 0) + count_of p log.
Proof.
  unfold count_of. rewrite filter_cons.
  destruct (p entry); case_decide; simpl; congruence.
Qed.

(** What one call does to the number of entries. *)
Lemma call_size op repo :
  size (users (call op repo).1)
  + (if Delete_succeeded (op, (call op repo).2) then 1 else 0)
  = size (users repo)
    + (if Create_succeeded (op, (call op repo).2) then 1 else 0).
Proof.
  destruct op as [user| |id|user|id]; simpl.
  - unfold InMemoryUserRepository.Create.
    destruct (users repo !! ID user) eqn:Hk; simpl; [lia|].
    rewrite map_size_insert_None by done. lia.
  - lia.
  - unfold InMemoryUserRepository.Find.
    destruct (users repo !! id); simpl; lia.
  - unfold InMemoryUserRepository.Update.
    destruct (users repo !! ID user) eqn:Hk; simpl; [|lia].
    rewrite map_size_insert_Some by eauto. lia.
  - unfold InMemoryUserRepository.Delete.
    destruct (users repo !! id) eqn:Hk; simpl; [|lia].
    rewrite <- (insert_delete_id (users repo) id u Hk) at 2.
    rewrite map_size_insert_None by apply lookup_delete_eq. lia.
Qed.

(** Entries now, plus deletions that went through, are the entries at
    the start plus creations that went through. *)
Lemma run_size ops repo :
  size (users (run ops repo).1) + count_of Delete_succeeded (run ops repo).2
  = size (users repo) + count_of Create_succeeded (run ops repo).2.
Proof.
  revert repo. induction ops as [|op ops IH]; intros repo; simpl.
  - unfold count_of. simpl. lia.
  - pose proof (call_size op repo) as Hcall.
    destruct (call op repo) as [repo1 err] eqn:Hop. cbn [fst snd] in Hcall.
    specialize (IH repo1).
    destruct (run ops repo1) as [repo2 log] eqn:Hrun. cbn [fst snd] in IH |- *.
    rewrite !count_of_cons.
    destruct (Delete_succeeded (op, err)), (Create_succeeded (op, err)); lia.
Qed.

Lemma run_app ops1 ops2 repo :
  run (ops1 ++ ops2) repo
  = let '(repo1, log1) := run ops1 repo in
    let '(repo2, log2) := run ops2 repo1 in
    (repo2, log1 ++ log2).
Proof.
  revert repo. induction ops1 as [|op ops1 IH]; intros repo; simpl.
  - by destruct (run ops2 repo).
  - destruct (call op repo) as [repo1 err]. rewrite IH.
    destruct (run ops1 repo1) as [repo2 log1].
    by destruct (run ops2 repo2).
Qed.

Lemma run_reachable ops repo : reachable repo → reachable (run ops repo).1.
Proof.
  revert repo. induction ops as [|op ops IH]; intros repo Hrepo; simpl; [done|].
  pose proof (reachable_call op repo Hrepo) as Hstep.
  destruct (call op repo) as [repo1 err]. simpl in Hstep.
  specialize (IH repo1 Hstep).
  by destruct (run ops repo1) as [repo2 log].
Qed.

Lemma reachable_run repo :
  reachable repo → ∃ ops, (run ops NewInMemoryUserRepository).1 = repo.
Proof.
  induction 1 as [|op repo _ [ops Hops]].
  - by exists [].
  - exists (ops ++ [op]). rewrite run_app.
    destruct (run ops NewInMemoryUserRepository) as [repo1 log1].
    simpl in Hops. subst repo1. simpl. by destruct (call op repo).
Qed.

(** Each call keeps every key equal to the [ID] stored under it. *)
Lemma call_keyed_by_ID op repo :
  keyed_by_ID repo → keyed_by_ID (call op repo).1.
Proof.
  intros Hkeyed.
  destruct op as [user| |id|user|id]; simpl; try done.
  - unfold InMemoryUserRepository.Create.
    destruct (users repo !! ID user) eqn:Hk; simpl; [done|].
    intros k u. simpl. rewrite lookup_insert.
    case_decide; [by intros [= <-]|by apply Hkeyed].
  - unfold InMemoryUserRepository.Find. by destruct (users repo !! id).
  - unfold InMemoryUserRepository.Update.
    destruct (users repo !! ID user) eqn:Hk; simpl; [|done].
    intros k u'. simpl. rewrite lookup_insert.
    case_decide; [by intros [= <-]|by apply Hkeyed].
  - unfold InMemoryUserRepository.Delete.
    destruct (users repo !! id) eqn:Hk; simpl; [|done].
    intros k u'. simpl. rewrite lookup_delete.
    case_decide; [done|by apply Hkeyed].
Qed.

End Sequences.

(** C9. Run any sequence of calls one after the other on the new store and
    stop after any number [n] of them: the creations that returned nil so
    far are at least as many as the deletions that returned nil, and any
    slice [List] may return at that point has as many elements as the
    difference of the two. *)
Theorem List_length_is_Creates_minus_Deletes (ops : list Op) (n : nat)
    (repo' : InMemoryUserRepository.t) (userList : list User) (err : option error) :
  List_returns (run (take n ops) NewInMemoryUserRepository).1 (repo', (userList, err)) →
  let log := (run (take n ops) NewInMemoryUserRepository).2 in
  count_of Delete_succeeded log ≤ count_of Create_succeeded log
  ∧ err = None
  ∧ length userList = count_of Create_succeeded log - count_of Delete_succeeded log.
Proof.
  intros Hres log. subst log.
  pose proof (run_size (take n ops) NewInMemoryUserRepository) as Hsize.
  replace (size (users NewInMemoryUserRepository)) with 0 in Hsize
    by (symmetry; apply map_size_empty).
  pose proof (List_returns_length _ _ _ _ Hres) as Hlen.
  apply List_returns_inv in Hres as (kvs & _ & [= _ _ ->]).
  split; [lia|]. split; [done|]. lia.
Qed.

Lemma List_length_is_Creates_minus_Deletes_witness :
  let repo := (run (take 6 busy_day) NewInMemoryUserRepository).1 in
  let log := (run (take 6 busy_day) NewInMemoryUserRepository).2 in
  List_returns repo (repo, ([carol], None))
  ∧ count_of Create_succeeded log = 2
  ∧ count_of Delete_succeeded log = 1
  ∧ count_of Delete_succeeded log ≤ count_of Create_succeeded log
  ∧ @None error = None
  ∧ length [carol] = count_of Create_succeeded log - count_of Delete_succeeded log.
Proof.
  intros repo log.
  assert (List_returns repo (repo, ([carol], None))) as Hret.
  { apply List_returns_any_order. vm_compute. reflexivity. }
  split; [exact Hret|]. split; [reflexivity|]. split; [reflexivity|].
  exact (List_length_is_Creates_minus_Deletes busy_day 6 _ _ _ Hret).
Defined.

(** C10. In every state the store can reach from the new store through
    calls of its methods, each key is the [ID] of the record stored under
    it; hence a record that [Find id] returns with a nil error has
    [ID = id]. *)
Theorem reachable_keys_are_IDs (repo : InMemoryUserRepository.t) :
  reachable repo →
  keyed_by_ID repo
  ∧ ∀ id repo' user,
      InMemoryUserRepository.Find id repo = (repo', (user, None)) → ID user = id.
Proof.
  intros Hreach.
  assert (keyed_by_ID repo) as Hkeyed.
  { induction Hreach as [|op repo _ IH].
    - intros k user. simpl. by rewrite lookup_empty.
    - by apply call_keyed_by_ID. }
  split; [done|]. intros id repo' user. unfold InMemoryUserRepository.Find.
  destruct (users repo !! id) as [stored|] eqn:Hk; [|done].
  intros [= _ <-]. by apply Hkeyed.
Qed.

Lemma reachable_keys_are_IDs_witness :
  let repo := (run busy_day NewInMemoryUserRepository).1 in
  reachable repo
  ∧ users repo !! "2" = Some carol
  ∧ InMemoryUserRepository.Find "1" repo = (repo, (alice, None))
  ∧ keyed_by_ID repo
  ∧ ∀ id repo' user,
      InMemoryUserRepository.Find id repo = (repo', (user, None)) → ID user = id.
Proof.
  intros repo.
  assert (reachable repo) as Hreach.
  { apply run_reachable. constructor. }
  split; [exact Hreach|]. split; [reflexivity|]. split; [reflexivity|].
  exact (reachable_keys_are_IDs repo Hreach).
Defined.

(* ===================================================================== *)
(** ** Parsing the age *)
(* ===================================================================== *)

Lemma digit_value_range ch d : digit_value ch = Some d → (0 ≤ d ≤ 9)%Z.
Proof.
  unfold digit_value. case_bool_decide; [|done]. intros [= <-]. lia.
Qed.

Lemma ParseUint_digits_nonneg s : ∀ n un,
  (0 ≤ n)%Z → ParseUint_digits n s = inl un → (0 ≤ un)%Z.
Proof.
  induction s as [|ch s IH]; intros n un Hn; simpl.
  - by intros [= <-].
  - destruct (digit_value ch) as [d|] eqn:Hd; [|done].
    apply digit_value_range in Hd.
    repeat case_bool_decide; try done.
    apply IH. lia.
Qed.

(** An age that parses is a value of the 64-bit [int]. *)
Lemma strconv_Atoi_range s v :
  strconv_Atoi s = inl v → (- 2 ^ 63 ≤ v < 2 ^ 63)%Z.
Proof.
  unfold strconv_Atoi. destruct (split_sign s) as [neg digits].
  destruct digits as [|ch digits]; [done|].
  destruct (ParseUint_digits 0 (String ch digits)) as [un|nerr] eqn:Hun; [|done].
  apply ParseUint_digits_nonneg in Hun; [|done].
  unfold intSize. destruct neg; case_bool_decide; try done; intros [= <-]; lia.
Qed.

(* ===================================================================== *)
(** ** The handlers *)
(* ===================================================================== *)

Section HandlerFacts.

Context {R : Type} `{UserRepository R}.
Implicit Types (repo : R) (r : Request).

Lemma presence_check (id name ageStr : string) :
  bool_decide (id = "") || bool_decide (name = "") || bool_decide (ageStr = "") = true
  ↔ id = "" ∨ name = "" ∨ ageStr = "".
Proof. rewrite !orb_true_iff, !bool_decide_eq_true. tauto. Qed.

Lemma presence_check_passed (id name ageStr : string) :
  id ≠ "" → name ≠ "" → ageStr ≠ "" →
  bool_decide (id = "") || bool_decide (name = "") || bool_decide (ageStr = "") = false.
Proof.
  intros Hid Hname Hage. apply not_true_is_false.
  rewrite presence_check. tauto.
Qed.

(** The first check: a required parameter is empty. *)
Lemma createUserHandler_missing repo r :
  Values_Get (Query r) "id" = "" ∨ Values_Get (Query r) "name" = ""
    ∨ Values_Get (Query r) "age" = "" →
  createUserHandler repo r = (repo, http_Error "Missing parameters" StatusBadRequest).
Proof.
  intros Hmissing%presence_check. unfold createUserHandler. cbv zeta.
  by rewrite Hmissing.
Qed.

Lemma updateUserHandler_missing repo r :
  Values_Get (Query r) "id" = "" ∨ Values_Get (Query r) "name" = ""
    ∨ Values_Get (Query r) "age" = "" →
  updateUserHandler repo r = (repo, http_Error "Missing parameters" StatusBadRequest).
Proof.
  intros Hmissing%presence_check. unfold updateUserHandler. cbv zeta.
  by rewrite Hmissing.
Qed.

(** The second check, reached when all three are present: [age] does not
    parse. *)
Lemma createUserHandler_invalid_age repo r nerr :
  Values_Get (Query r) "id" ≠ "" → Values_Get (Query r) "name" ≠ "" →
  Values_Get (Query r) "age" ≠ "" →
  strconv_Atoi (Values_Get (Query r) "age") = inr nerr →
  createUserHandler repo r = (repo, http_Error "Invalid age parameter" StatusBadRequest).
Proof.
  intros Hid Hname Hage Hparse. unfold createUserHandler. cbv zeta.
  by rewrite presence_check_passed, Hparse.
Qed.

Lemma updateUserHandler_invalid_age repo r nerr :
  Values_Get (Query r) "id" ≠ "" → Values_Get (Query r) "name" ≠ "" →
  Values_Get (Query r) "age" ≠ "" →
  strconv_Atoi (Values_Get (Query r) "age") = inr nerr →
  updateUserHandler repo r = (repo, http_Error "Invalid age parameter" StatusBadRequest).
Proof.
  intros Hid Hname Hage Hparse. unfold updateUserHandler. cbv zeta.
  by rewrite presence_check_passed, Hparse.
Qed.

(** Past both checks, the handler is its one repository call and the
    translation of what the call returned. *)
Lemma createUserHandler_valid repo r age :
  Values_Get (Query r) "id" ≠ "" → Values_Get (Query r) "name" ≠ "" →
  strconv_Atoi (Values_Get (Query r) "age") = inl age →
  createUserHandler repo r =
    match Create {| ID := Values_Get (Query r) "id";
                    Name := Values_Get (Query r) "name"; Age := age |} repo with
    | (repo', Some err) => (repo', http_Error (Error err) StatusInternalServerError)
    | (repo', None) => (repo', WriteHeader StatusCreated)
    end.
Proof.
  intros Hid Hname Hparse. unfold createUserHandler. cbv zeta.
  rewrite presence_check_passed, Hparse; [done..|].
  intros Hage. by rewrite Hage in Hparse.
Qed.

Lemma updateUserHandler_valid repo r age :
  Values_Get (Query r) "id" ≠ "" → Values_Get (Query r) "name" ≠ "" →
  strconv_Atoi (Values_Get (Query r) "age") = inl age →
  updateUserHandler repo r =
    match Update {| ID := Values_Get (Query r) "id";
                    Name := Values_Get (Query r) "name"; Age := age |} repo with
    | (repo', Some err) => (repo', http_Error (Error err) StatusInternalServerError)
    | (repo', None) => (repo', WriteHeader StatusOK)
    end.
Proof.
  intros Hid Hname Hparse. unfold updateUserHandler. cbv zeta.
  rewrite presence_check_passed, Hparse; [done..|].
  intros Hage. by rewrite Hage in Hparse.
Qed.

Lemma findUserHandler_valid repo r :
  Values_Get (Query r) "id" ≠ "" →
  findUserHandler repo r =
    match Find (Values_Get (Query r) "id") repo with
    | (repo', (_, Some err)) => (repo', http_Error (Error err) StatusNotFound)
    | (repo', (user, None)) => (repo', Encode (JsonUser user))
    end.
Proof.
  intros Hid. unfold findUserHandler. cbv zeta.
  by rewrite bool_decide_eq_false_2.
Qed.

Lemma deleteUserHandler_valid repo r :
  Values_Get (Query r) "id" ≠ "" →
  deleteUserHandler repo r =
    match Delete (Values_Get (Query r) "id") repo with
    | (repo', Some err) => (repo', http_Error (Error err) StatusInternalServerError)
    | (repo', None) => (repo', WriteHeader StatusOK)
    end.
Proof.
  intros Hid. unfold deleteUserHandler. cbv zeta.
  by rewrite bool_decide_eq_false_2.
Qed.

End HandlerFacts.

(** The recording repository sees no call from a create or update request
    that fails validation. *)
Lemma rejected_request_reaches_no_method (calls : list Op) (r : Request) :
  status (createUserHandler calls r).2 = StatusBadRequest →
  status (updateUserHandler calls r).2 = StatusBadRequest →
  (createUserHandler calls r).1 = calls ∧ (updateUserHandler calls r).1 = calls.
Proof.
  unfold createUserHandler, updateUserHandler. cbv zeta.
  destruct (_ || _); [done|].
  by destruct (strconv_Atoi _).
Qed.

(** C7, as stated, fails: with [id] missing and [age=abc], the age
    parameter is non-empty and does not parse, yet both handlers answer
    with the missing-parameters message, not with the invalid-age one:
    the presence check comes first. *)
Lemma invalid_age_hidden_by_missing_id :
  let r := mkQuery "" "Alice" "abc" in
  Values_Get (Query r) "age" ≠ ""
  ∧ strconv_Atoi (Values_Get (Query r) "age") = inr ErrSyntax
  ∧ (createUserHandler NewInMemoryUserRepository r).2
    = http_Error "Missing parameters" 400
  ∧ (createUserHandler NewInMemoryUserRepository r).2
    ≠ http_Error "Invalid age parameter" 400
  ∧ (updateUserHandler just_alice r).2 = http_Error "Missing parameters" 400
  ∧ (updateUserHandler just_alice r).2 ≠ http_Error "Invalid age parameter" 400.
Proof. by vm_compute. Qed.

(** C7, amended.  For the create and the update handler, over any
    repository: when [id], [name] or [age] is empty, the handler answers
    400 with "Missing parameters" and hands back the repository it was
    given, no method of it having been called; when all three are
    non-empty and [age] does not parse as an integer, it answers 400 with
    the different message "Invalid age parameter", again with the
    repository untouched. *)
Theorem validation_precedes_repository {R : Type} `{UserRepository R}
    (repo : R) (r : Request) :
  let id := Values_Get (Query r) "id" in
  let name := Values_Get (Query r) "name" in
  let ageStr := Values_Get (Query r) "age" in
  (id = "" ∨ name = "" ∨ ageStr = "" →
     createUserHandler repo r
       = (repo, {| status := 400; body := ErrorText "Missing parameters" |})
     ∧ updateUserHandler repo r
       = (repo, {| status := 400; body := ErrorText "Missing parameters" |}))
  ∧ (id ≠ "" → name ≠ "" → ageStr ≠ "" →
     (∃ nerr, strconv_Atoi ageStr = inr nerr) →
     createUserHandler repo r
       = (repo, {| status := 400; body := ErrorText "Invalid age parameter" |})
     ∧ updateUserHandler repo r
       = (repo, {| status := 400; body := ErrorText "Invalid age parameter" |}))
  ∧ "Missing parameters" ≠ "Invalid age parameter".
Proof.
  intros id name ageStr. split; [|split; [|done]].
  - intros Hmissing.
    by rewrite createUserHandler_missing, updateUserHandler_missing.
  - intros Hid Hname Hage [nerr Hparse].
    by rewrite (createUserHandler_invalid_age _ _ nerr),
      (updateUserHandler_invalid_age _ _ nerr).
Qed.

Lemma validation_precedes_repository_witness :
  (Values_Get (Query (mkQuery "2" "" "27")) "name" = ""
   ∧ createUserHandler just_alice (mkQuery "2" "" "27")
     = (just_alice, http_Error "Missing parameters" 400)
   ∧ updateUserHandler just_alice (mkQuery "2" "" "27")
     = (just_alice, http_Error "Missing parameters" 400))
  ∧ (strconv_Atoi (Values_Get (Query (mkQuery "1" "Alice" "abc")) "age") = inr ErrSyntax
     ∧ createUserHandler NewInMemoryUserRepository (mkQuery "1" "Alice" "abc")
       = (NewInMemoryUserRepository, http_Error "Invalid age parameter" 400)
     ∧ updateUserHandler just_alice (mkQuery "1" "Alice" "abc")
       = (just_alice, http_Error "Invalid age parameter" 400))
  ∧ (createUserHandler (H := Recorder) [] (mkQuery "1" "Alice" "abc")
       = ([], http_Error "Invalid age parameter" 400)
     ∧ updateUserHandler (H := Recorder) [] (mkQuery "" "Alice" "30")
       = ([], http_Error "Missing parameters" 400)).
Proof.
  split; [|split].
  - split; [reflexivity|].
    apply (validation_precedes_repository just_alice (mkQuery "2" "" "27")).
    right; left; reflexivity.
  - split; [reflexivity|]. split.
    + apply (validation_precedes_repository NewInMemoryUserRepository
               (mkQuery "1" "Alice" "abc")); [by vm_compute..|].
      exists ErrSyntax. reflexivity.
    + apply (validation_precedes_repository just_alice
               (mkQuery "1" "Alice" "abc")); [by vm_compute..|].
      exists ErrSyntax. reflexivity.
  - split.
    + apply (validation_precedes_repository (H := Recorder) []
               (mkQuery "1" "Alice" "abc")); [by vm_compute..|].
      exists ErrSyntax. reflexivity.
    + apply (validation_precedes_repository (H := Recorder) []
               (mkQuery "" "Alice" "30")).
      left; reflexivity.
Defined.

(** C8. Once a request has passed validation and the repository call has
    been made: the find handler turns an error of [Find] into 404 with
    the error's text as body, whereas the create, update and delete
    handlers turn an error of their call into 500 with the error's text as
    body, whatever the error is; when the call returns nil, create answers
    201 and update and delete answer 200, with nothing written to the
    body. *)
Theorem status_mapping_is_asymmetric {R : Type} `{UserRepository R}
    (repo repo' : R) (r : Request) :
  let id := Values_Get (Query r) "id" in
  let name := Values_Get (Query r) "name" in
  let ageStr := Values_Get (Query r) "age" in
  (id ≠ "" →
     ∀ user err, Find id repo = (repo', (user, Some err)) →
       findUserHandler repo r
         = (repo', {| status := 404; body := ErrorText (Error err) |}))
  ∧ (id ≠ "" → name ≠ "" →
     ∀ age, strconv_Atoi ageStr = inl age →
       let user := {| ID := id; Name := name; Age := age |} in
       (∀ err, Create user repo = (repo', Some err) →
          createUserHandler repo r
            = (repo', {| status := 500; body := ErrorText (Error err) |}))
       ∧ (Create user repo = (repo', None) →
          createUserHandler repo r = (repo', {| status := 201; body := NoBody |}))
       ∧ (∀ err, Update user repo = (repo', Some err) →
          updateUserHandler repo r
            = (repo', {| status := 500; body := ErrorText (Error err) |}))
       ∧ (Update user repo = (repo', None) →
          updateUserHandler repo r = (repo', {| status := 200; body := NoBody |})))
  ∧ (id ≠ "" →
       (∀ err, Delete id repo = (repo', Some err) →
          deleteUserHandler repo r
            = (repo', {| status := 500; body := ErrorText (Error err) |}))
       ∧ (Delete id repo = (repo', None) →
          deleteUserHandler repo r = (repo', {| status := 200; body := NoBody |}))).
Proof.
  cbv zeta. split; [|split].
  - intros Hid user err Hfind.
    by rewrite findUserHandler_valid, Hfind.
  - intros Hid Hname age Hparse.
    rewrite (createUserHandler_valid _ _ age), (updateUserHandler_valid _ _ age)
      by done.
    repeat split; [intros err Hcall|intros Hcall|intros err Hcall|intros Hcall];
      by rewrite Hcall.
  - intros Hid. rewrite deleteUserHandler_valid by done.
    split; [intros err Hcall|intros Hcall]; by rewrite Hcall.
Qed.

Lemma status_mapping_is_asymmetric_witness :
  (InMemoryUserRepository.Find "2" just_alice = (just_alice, (User_zero, Some NotFound))
   ∧ findUserHandler just_alice (mkQuery "2" "" "")
     = (just_alice, http_Error "user not found" 404))
  ∧ (InMemoryUserRepository.Create bob just_alice = (just_alice, Some AlreadyExists)
     ∧ createUserHandler just_alice (mkQuery "1" "Bob" "31")
       = (just_alice, http_Error "user already exists" 500))
  ∧ createUserHandler NewInMemoryUserRepository (mkQuery "1" "Alice" "30")
    = (just_alice, WriteHeader 201)
  ∧ updateUserHandler NewInMemoryUserRepository (mkQuery "1" "Bob" "31")
    = (NewInMemoryUserRepository, http_Error "user not found" 500)
  ∧ updateUserHandler just_alice (mkQuery "1" "Bob" "31")
    = (InMemoryUserRepository.mk {[ "1" := bob ]}, WriteHeader 200)
  ∧ deleteUserHandler NewInMemoryUserRepository (mkQuery "1" "" "")
    = (NewInMemoryUserRepository, http_Error "user not found" 500)
  ∧ deleteUserHandler just_alice (mkQuery "1" "" "")
    = (NewInMemoryUserRepository, WriteHeader 200).
Proof.
  split; [split; [reflexivity|]|].
  { apply (status_mapping_is_asymmetric just_alice just_alice (mkQuery "2" "" ""))
      with (user := User_zero) (err := NotFound); [by vm_compute|reflexivity]. }
  split; [split; [reflexivity|]|].
  { apply (status_mapping_is_asymmetric just_alice just_alice (mkQuery "1" "Bob" "31"))
      with (age := 31%Z) (err := AlreadyExists);
      [by vm_compute|by vm_compute|reflexivity|reflexivity]. }
  split.
  { apply (status_mapping_is_asymmetric NewInMemoryUserRepository just_alice
             (mkQuery "1" "Alice" "30")) with (age := 30%Z);
      [by vm_compute|by vm_compute|reflexivity|reflexivity]. }
  split.
  { apply (status_mapping_is_asymmetric NewInMemoryUserRepository
             NewInMemoryUserRepository (mkQuery "1" "Bob" "31"))
      with (age := 31%Z) (err := NotFound);
      [by vm_compute|by vm_compute|reflexivity|reflexivity]. }
  split.
  { apply (status_mapping_is_asymmetric just_alice
             (InMemoryUserRepository.mk {[ "1" := bob ]}) (mkQuery "1" "Bob" "31"))
      with (age := 31%Z);
      [by vm_compute|by vm_compute|reflexivity|reflexivity]. }
  split.
  { apply (status_mapping_is_asymmetric NewInMemoryUserRepository
             NewInMemoryUserRepository (mkQuery "1" "" ""))
      with (err := NotFound); [by vm_compute|reflexivity]. }
  apply (status_mapping_is_asymmetric just_alice NewInMemoryUserRepository
           (mkQuery "1" "" "")); [by vm_compute|reflexivity].
Defined.

(* ===================================================================== *)
(** ** The repository: how calls compose *)
(* ===================================================================== *)

Section Composition.

Implicit Types (repo : InMemoryUserRepository.t) (u user : User) (id k : string).

Lemma repo_eta repo : mk (users repo) = repo.
Proof. by destruct repo. Qed.

Lemma reachable_keyed repo : reachable repo → keyed_by_ID repo.
Proof.
  induction 1 as [|op repo _ IH].
  - intros k user. simpl. by rewrite lookup_empty.
  - by apply call_keyed_by_ID.
Qed.

(** A map whose keys are the ids of its records is built by creating the
    records one by one. *)
Lemma keyed_reachable (m : gmap string User) :
  keyed_by_ID (mk m) → reachable (mk m).
Proof.
  induction m as [|k user m Hfree _ IH] using map_first_key_ind.
  - intros _. apply reachable_new.
  - intros Hkeyed.
    assert (ID user = k) as Hk by (apply Hkeyed; simpl; apply lookup_insert_eq).
    assert (reachable (mk m)) as Hm.
    { apply IH. intros k' user' Hin. apply Hkeyed. simpl in *.
      rewrite lookup_insert_ne; [done|]. intros <-. congruence. }
    pose proof (reachable_call (OpCreate user) (mk m) Hm) as Hstep.
    simpl in Hstep. unfold InMemoryUserRepository.Create in Hstep. simpl in Hstep.
    rewrite Hk, Hfree in Hstep. exact Hstep.
Qed.

(** What a call on id [k] leaves under any other key. *)
Lemma call_other_key op repo k k' :
  op_id op = Some k → k ≠ k' →
  users (call op repo).1 !! k' = users repo !! k'.
Proof.
  intros Hop Hne. destruct op as [user| |id|user|id]; simpl in *;
    simplify_eq.
  - unfold InMemoryUserRepository.Create.
    destruct (users repo !! ID user); simpl; [done|]. by rewrite lookup_insert_ne.
  - unfold InMemoryUserRepository.Find. by destruct (users repo !! k).
  - unfold InMemoryUserRepository.Update.
    destruct (users repo !! ID user); simpl; [|done]. by rewrite lookup_insert_ne.
  - unfold InMemoryUserRepository.Delete.
    destruct (users repo !! k); simpl; [|done]. by rewrite lookup_delete_ne.
Qed.

(** What a call on id [k] returns and leaves under [k] depends on the
    store only through its entry for [k]. *)
Lemma call_same_key op repo1 repo2 k :
  op_id op = Some k →
  users repo1 !! k = users repo2 !! k →
  (call op repo1).2 = (call op repo2).2
  ∧ users (call op repo1).1 !! k = users (call op repo2).1 !! k.
Proof.
  intros Hop Hk. destruct op as [user| |id|user|id]; simpl in *; simplify_eq.
  - unfold InMemoryUserRepository.Create. rewrite Hk.
    destruct (users repo2 !! ID user) eqn:Hk2; simpl; [by rewrite Hk, Hk2|].
    by rewrite !lookup_insert_eq.
  - unfold InMemoryUserRepository.Find. rewrite Hk.
    destruct (users repo2 !! k) eqn:Hk2; simpl; by rewrite Hk, Hk2.
  - unfold InMemoryUserRepository.Update. rewrite Hk.
    destruct (users repo2 !! ID user) eqn:Hk2; simpl; [|by rewrite Hk, Hk2].
    by rewrite !lookup_insert_eq.
  - unfold InMemoryUserRepository.Delete. rewrite Hk.
    destruct (users repo2 !! k) eqn:Hk2; simpl; [|by rewrite Hk, Hk2].
    by rewrite !lookup_delete_eq.
Qed.

Lemma repo_ext repo1 repo2 :
  (∀ k, users repo1 !! k = users repo2 !! k) → repo1 = repo2.
Proof.
  intros Hext. destruct repo1 as [m1], repo2 as [m2]. f_equal. by apply map_eq.
Qed.

End Composition.

(** X1. A call that returns an error has changed nothing: the state after
    it is the state before it.  The error of [Create] is the
    already-exists one, that of [Find], [Update] and [Delete] the
    not-found one. *)
Theorem failed_call_changes_nothing (op : Op) (repo : InMemoryUserRepository.t)
    (err : error) :
  (call op repo).2 = Some err →
  (call op repo).1 = repo
  ∧ err = match op with OpCreate _ => AlreadyExists | _ => NotFound end.
Proof.
  destruct op as [user| |id|user|id]; simpl.
  - unfold InMemoryUserRepository.Create.
    destruct (users repo !! ID user); simpl; [|done]. by intros [= <-].
  - done.
  - unfold InMemoryUserRepository.Find.
    destruct (users repo !! id); simpl; [done|]. by intros [= <-].
  - unfold InMemoryUserRepository.Update.
    destruct (users repo !! ID user); simpl; [done|]. by intros [= <-].
  - unfold InMemoryUserRepository.Delete.
    destruct (users repo !! id); simpl; [done|]. by intros [= <-].
Qed.

Lemma failed_call_changes_nothing_witness :
  (call (OpUpdate carol) just_alice).2 = Some NotFound
  ∧ (call (OpUpdate carol) just_alice).1 = just_alice
  ∧ NotFound = NotFound.
Proof.
  split; [reflexivity|].
  apply (failed_call_changes_nothing (OpUpdate carol) just_alice NotFound).
  reflexivity.
Defined.

(** X2. On one and the same state, [Create u] returns nil exactly when
    [Find u.ID] returns the not-found error, and [Update u] and
    [Delete id] return nil exactly when [Find] on that id returns nil. *)
Theorem success_tracks_presence (repo : InMemoryUserRepository.t) (u : User)
    (id : string) :
  ((InMemoryUserRepository.Create u repo).2 = None
     ↔ (InMemoryUserRepository.Find (ID u) repo).2.2 = Some NotFound)
  ∧ ((InMemoryUserRepository.Update u repo).2 = None
     ↔ (InMemoryUserRepository.Find (ID u) repo).2.2 = None)
  ∧ ((InMemoryUserRepository.Delete id repo).2 = None
     ↔ (InMemoryUserRepository.Find id repo).2.2 = None).
Proof.
  unfold InMemoryUserRepository.Create, InMemoryUserRepository.Update,
    InMemoryUserRepository.Delete, InMemoryUserRepository.Find.
  destruct (users repo !! ID u), (users repo !! id); simpl; naive_solver.
Qed.

(** X3. Creating a record under a free id and deleting that id again gives
    back the very state one started from; both calls return nil. *)
Theorem Create_then_Delete_restores (repo : InMemoryUserRepository.t) (u : User) :
  users repo !! ID u = None →
  (InMemoryUserRepository.Create u repo).2 = None
  ∧ InMemoryUserRepository.Delete (ID u) (InMemoryUserRepository.Create u repo).1
    = (repo, None).
Proof.
  intros Hfree. rewrite (Create_fresh _ _ Hfree). split; [done|]. simpl.
  erewrite Delete_present by (simpl; apply lookup_insert_eq). simpl.
  by rewrite delete_insert_id, repo_eta.
Qed.

Lemma Create_then_Delete_restores_witness :
  users just_alice !! ID carol = None
  ∧ (InMemoryUserRepository.Create carol just_alice).2 = None
  ∧ InMemoryUserRepository.Delete (ID carol)
      (InMemoryUserRepository.Create carol just_alice).1
    = (just_alice, None).
Proof.
  split; [reflexivity|].
  apply (Create_then_Delete_restores just_alice carol). reflexivity.
Defined.

(** X4. Deleting a stored record and creating that same record again gives
    back the state one started from; both calls return nil. *)
Theorem Delete_then_Create_restores (repo : InMemoryUserRepository.t) (u : User) :
  users repo !! ID u = Some u →
  (InMemoryUserRepository.Delete (ID u) repo).2 = None
  ∧ InMemoryUserRepository.Create u (InMemoryUserRepository.Delete (ID u) repo).1
    = (repo, None).
Proof.
  intros Hin. rewrite (Delete_present _ _ _ Hin). split; [done|]. simpl.
  rewrite Create_fresh by (simpl; apply lookup_delete_eq). simpl.
  by rewrite insert_delete_id, repo_eta.
Qed.

Lemma Delete_then_Create_restores_witness :
  users just_alice !! ID alice = Some alice
  ∧ (InMemoryUserRepository.Delete (ID alice) just_alice).2 = None
  ∧ InMemoryUserRepository.Create alice
      (InMemoryUserRepository.Delete (ID alice) just_alice).1
    = (just_alice, None).
Proof.
  split; [reflexivity|].
  apply (Delete_then_Create_restores just_alice alice). reflexivity.
Defined.

(** X5. The last write wins.  Two updates of the same id in a row leave
    what the second alone would leave, and return what it alone would
    return; creating a record under a free id and then updating that id
    leaves what creating the second record directly would leave. *)
Theorem last_write_wins (repo : InMemoryUserRepository.t) (u1 u2 : User) :
  ID u1 = ID u2 →
  InMemoryUserRepository.Update u2 (InMemoryUserRepository.Update u1 repo).1
    = InMemoryUserRepository.Update u2 repo
  ∧ (users repo !! ID u1 = None →
     InMemoryUserRepository.Update u2 (InMemoryUserRepository.Create u1 repo).1
       = ((InMemoryUserRepository.Create u2 repo).1, None)).
Proof.
  intros Hid. split.
  - unfold InMemoryUserRepository.Update at 2 3. rewrite <- Hid.
    destruct (users repo !! ID u1) as [stored|] eqn:Hk; simpl.
    + erewrite Update_present by (simpl; rewrite <- Hid; apply lookup_insert_eq).
      simpl. by rewrite <- Hid, insert_insert_eq.
    + apply Update_absent. by rewrite <- Hid.
  - intros Hfree. rewrite (Create_fresh _ _ Hfree), Create_fresh by (by rewrite <- Hid).
    simpl.
    erewrite Update_present by (simpl; rewrite <- Hid; apply lookup_insert_eq).
    simpl. by rewrite <- Hid, insert_insert_eq.
Qed.

Lemma last_write_wins_witness :
  ID alice = ID bob
  ∧ InMemoryUserRepository.Update bob (InMemoryUserRepository.Update alice just_alice).1
    = InMemoryUserRepository.Update bob just_alice
  ∧ users NewInMemoryUserRepository !! ID alice = None
  ∧ InMemoryUserRepository.Update bob
      (InMemoryUserRepository.Create alice NewInMemoryUserRepository).1
    = ((InMemoryUserRepository.Create bob NewInMemoryUserRepository).1, None).
Proof.
  split; [reflexivity|]. split; [|split; [reflexivity|]].
  - apply (last_write_wins just_alice alice bob). reflexivity.
  - apply (last_write_wins NewInMemoryUserRepository alice bob); reflexivity.
Defined.

(** X6. Calls about different ids do not get in each other's way: made in
    either order they leave the same state, and each returns what it would
    have returned without the other. *)
Theorem calls_on_distinct_ids_commute (op1 op2 : Op)
    (repo : InMemoryUserRepository.t) (k1 k2 : string) :
  op_id op1 = Some k1 → op_id op2 = Some k2 → k1 ≠ k2 →
  (call op2 (call op1 repo).1).1 = (call op1 (call op2 repo).1).1
  ∧ (call op1 (call op2 repo).1).2 = (call op1 repo).2
  ∧ (call op2 (call op1 repo).1).2 = (call op2 repo).2.
Proof.
  intros Hop1 Hop2 Hne.
  assert (users (call op2 repo).1 !! k1 = users repo !! k1) as H21
    by (by apply (call_other_key op2 repo k2 k1)).
  assert (users (call op1 repo).1 !! k2 = users repo !! k2) as H12
    by (by apply (call_other_key op1 repo k1 k2)).
  split; [|split].
  - apply repo_ext. intros k.
    destruct (decide (k = k1)) as [->|Hk1]; [|destruct (decide (k = k2)) as [->|Hk2]].
    + rewrite (call_other_key op2 _ k2 k1) by done.
      by apply (call_same_key op1 _ _ k1).
    + rewrite (call_other_key op1 (call op2 repo).1 k1 k2) by done.
      by apply (call_same_key op2 _ _ k2).
    + rewrite (call_other_key op2 _ k2 k) by done.
      rewrite (call_other_key op1 repo k1 k) by done.
      rewrite (call_other_key op1 _ k1 k) by done.
      by rewrite (call_other_key op2 repo k2 k).
  - by apply (call_same_key op1 _ _ k1).
  - by apply (call_same_key op2 _ _ k2).
Qed.

Lemma calls_on_distinct_ids_commute_witness :
  op_id (OpDelete "1") = Some "1" ∧ op_id (OpCreate carol) = Some "2" ∧ "1" ≠ "2"
  ∧ (call (OpCreate carol) (call (OpDelete "1") just_alice).1).1
    = (call (OpDelete "1") (call (OpCreate carol) just_alice).1).1
  ∧ (call (OpDelete "1") (call (OpCreate carol) just_alice).1).2
    = (call (OpDelete "1") just_alice).2
  ∧ (call (OpCreate carol) (call (OpDelete "1") just_alice).1).2
    = (call (OpCreate carol) just_alice).2.
Proof.
  split; [reflexivity|]. split; [reflexivity|]. split; [done|].
  apply (calls_on_distinct_ids_commute (OpDelete "1") (OpCreate carol)
           just_alice "1" "2"); [reflexivity|reflexivity|done].
Defined.

Section ManyCreates.

Implicit Types (repo : InMemoryUserRepository.t) (us : list User).

Lemma entry_keys us : (entry_of <$> us).*1 = ID <$> us.
Proof. rewrite <- list_fmap_compose. by apply list_fmap_ext. Qed.

(** Creating records with different ids, none of them in the store: every
    call returns nil and the store gains exactly these records. *)
Lemma run_Creates us : ∀ repo,
  NoDup (ID <$> us) →
  (∀ u, u ∈ us → users repo !! ID u = None) →
  run (OpCreate <$> us) repo
  = (mk (list_to_map (entry_of <$> us) ∪ users repo),
     (λ u, (OpCreate u, None)) <$> us).
Proof.
  induction us as [|u us IH]; intros repo Hnodup Hfree.
  - simpl. by rewrite (left_id_L ∅ (∪)), repo_eta.
  - rewrite fmap_cons in Hnodup. apply NoDup_cons in Hnodup as [Hu Hnodup].
    rewrite !fmap_cons. cbn [run call].
    rewrite Create_fresh by (apply Hfree; left).
    rewrite IH; [|done|].
    + cbn [users list_to_map foldr uncurry entry_of]. f_equal. f_equal.
      fold (entry_of <$> us).
      rewrite <- insert_union_l. symmetry.
      apply (insert_union_r _ _ (ID u) u).
      apply not_elem_of_list_to_map_1. by rewrite entry_keys.
    + intros v Hv. simpl. rewrite lookup_insert_ne; [apply Hfree; by right|].
      intros Heq. apply Hu. rewrite Heq. by apply list_elem_of_fmap_2.
Qed.

End ManyCreates.

(** X7. Creations of records with pairwise different ids, none of them in
    the store yet, all return nil in whatever order they are serialized;
    the order makes no difference to the resulting store, which holds each
    of the records under its id and everything it held before, and every
    slice [List] may return afterwards contains each of the records. *)
Theorem distinct_Creates_all_succeed (us : list User)
    (repo : InMemoryUserRepository.t) :
  NoDup (ID <$> us) →
  (∀ u, u ∈ us → users repo !! ID u = None) →
  ∀ us', us' ≡ₚ us →
    let after := run (OpCreate <$> us') repo in
    after.2 = (λ u, (OpCreate u, None)) <$> us'
    ∧ after.1 = (run (OpCreate <$> us) repo).1
    ∧ (∀ u, u ∈ us → users after.1 !! ID u = Some u)
    ∧ (∀ k, k ∉ ID <$> us → users after.1 !! k = users repo !! k)
    ∧ (∀ repo' userList err,
         List_returns after.1 (repo', (userList, err)) → ∀ u, u ∈ us → u ∈ userList).
Proof.
  intros Hnodup Hfree us' Hperm after.
  assert (NoDup (ID <$> us')) as Hnodup' by (by rewrite Hperm).
  assert (∀ u, u ∈ us' → users repo !! ID u = None) as Hfree'
    by (intros u Hu; apply Hfree; by rewrite <- Hperm).
  assert (NoDup (entry_of <$> us).*1) as Hkeys by (by rewrite entry_keys).
  assert (after.1 = (run (OpCreate <$> us) repo).1) as Hafter.
  { unfold after. rewrite !run_Creates by done. simpl. f_equal. f_equal.
    apply list_to_map_proper; [by rewrite entry_keys|by rewrite Hperm]. }
  assert (∀ u, u ∈ us → users after.1 !! ID u = Some u) as Hstored.
  { intros u Hu. rewrite Hafter, run_Creates by done. simpl.
    apply lookup_union_Some_l, elem_of_list_to_map_1; [done|].
    by apply (list_elem_of_fmap_2 entry_of). }
  split; [|split; [done|split; [done|split]]].
  - unfold after. by rewrite run_Creates.
  - intros k Hk. rewrite Hafter, run_Creates by done. simpl.
    apply lookup_union_r, not_elem_of_list_to_map_1. by rewrite entry_keys.
  - intros repo' userList err (kvs & Hkvs & [= _ -> _])%List_returns_inv u Hu.
    apply (list_elem_of_fmap_2' snd _ (ID u, u)); [|done].
    rewrite Hkvs. apply elem_of_map_to_list. by apply Hstored.
Qed.

Lemma distinct_Creates_all_succeed_witness :
  NoDup (ID <$> [carol; dave])
  ∧ (∀ u, u ∈ [carol; dave] → users just_alice !! ID u = None)
  ∧ [dave; carol] ≡ₚ [carol; dave]
  ∧ (run (OpCreate <$> [dave; carol]) just_alice).2
    = [(OpCreate dave, None); (OpCreate carol, None)]
  ∧ (run (OpCreate <$> [dave; carol]) just_alice).1
    = (run (OpCreate <$> [carol; dave]) just_alice).1.
Proof.
  assert (NoDup (ID <$> [carol; dave])) as Hnodup.
  { apply (bool_decide_unpack _). by vm_compute. }
  assert (∀ u, u ∈ [carol; dave] → users just_alice !! ID u = None) as Hfree.
  { intros u Hu. apply list_elem_of_In in Hu.
    destruct Hu as [<-|[<-|[]]]; reflexivity. }
  assert ([dave; carol] ≡ₚ [carol; dave]) as Hperm by apply Permutation_swap.
  split; [exact Hnodup|]. split; [exact Hfree|]. split; [exact Hperm|].
  pose proof (distinct_Creates_all_succeed [carol; dave] just_alice
                Hnodup Hfree [dave; carol] Hperm) as (Hlog & Hstate & _).
  split; [exact Hlog|exact Hstate].
Defined.

(** X8. The states the store can reach are exactly those in which every
    key is the [ID] of the record under it: the invariant holds in every
    reachable state, and every such map is reached (by creating its
    records). *)
Theorem reachable_iff_keyed_by_ID (repo : InMemoryUserRepository.t) :
  reachable repo ↔ keyed_by_ID repo.
Proof.
  split; [apply reachable_keyed|].
  intros Hkeyed. rewrite <- repo_eta. apply keyed_reachable. by rewrite repo_eta.
Qed.

Lemma reachable_iff_keyed_by_ID_witness :
  keyed_by_ID (mk {[ "2" := carol; "4" := dave ]})
  ∧ reachable (mk {[ "2" := carol; "4" := dave ]}).
Proof.
  assert (keyed_by_ID (mk {[ "2" := carol; "4" := dave ]})) as Hkeyed.
  { intros k user. simpl. rewrite lookup_insert. case_decide.
    - intros [= <-]. by subst k.
    - rewrite lookup_singleton. case_decide; [|done]. intros [= <-]. by subst k. }
  split; [exact Hkeyed|].
  apply (reachable_iff_keyed_by_ID (mk {[ "2" := carol; "4" := dave ]})).
  exact Hkeyed.
Defined.

(** X9. In a reachable state, [List] and [Find] agree: a record is in the
    slice [List] returns exactly when [Find] on its id returns that
    record with a nil error; and the slice has no record twice. *)
Theorem List_agrees_with_Find (repo repo' : InMemoryUserRepository.t)
    (userList : list User) (err : option error) :
  reachable repo →
  List_returns repo (repo', (userList, err)) →
  NoDup userList
  ∧ ∀ u, u ∈ userList ↔ InMemoryUserRepository.Find (ID u) repo = (repo, (u, None)).
Proof.
  intros Hkeyed%reachable_keyed (kvs & Hkvs & [= _ -> _])%List_returns_inv.
  destruct (range_order_entries _ _ Hkvs) as [Hnodup Hentries].
  split.
  - apply (NoDup_fmap_1 ID).
    replace (ID <$> kvs.*2) with kvs.*1; [done|].
    rewrite <- list_fmap_compose. apply list_fmap_ext.
    intros i [k user] Hi. simpl. symmetry. apply Hkeyed, Hentries.
    eapply list_elem_of_lookup_2, Hi.
  - intros u. split.
    + intros ([k u'] & -> & Hin)%list_elem_of_fmap_1. simpl.
      apply Hentries in Hin. rewrite (Hkeyed _ _ Hin). by apply Find_present.
    + unfold InMemoryUserRepository.Find.
      destruct (users repo !! ID u) as [stored|] eqn:Hk; [|done].
      intros [= ->]. apply (list_elem_of_fmap_2' snd _ (ID u, u)); [|done].
      by apply Hentries.
Qed.

Lemma List_agrees_with_Find_witness :
  let repo := (run busy_day NewInMemoryUserRepository).1 in
  reachable repo
  ∧ List_returns repo (repo, ([carol; alice], None))
  ∧ NoDup [carol; alice]
  ∧ ∀ u, u ∈ [carol; alice] ↔ InMemoryUserRepository.Find (ID u) repo = (repo, (u, None)).
Proof.
  intros repo.
  assert (reachable repo) as Hreach by (apply run_reachable; constructor).
  assert (List_returns repo (repo, ([carol; alice], None))) as Hret.
  { apply List_returns_any_order. vm_compute. apply Permutation_swap. }
  split; [exact Hreach|]. split; [exact Hret|].
  exact (List_agrees_with_Find repo repo [carol; alice] None Hreach Hret).
Defined.

(* ===================================================================== *)
(** ** The handlers: the remaining paths *)
(* ===================================================================== *)

(** X10. The find and the delete handler, over any repository: when [id]
    is empty they answer 400 with "Missing id parameter" and hand back
    the repository they were given, without a call. *)
Theorem missing_id_rejected {R : Type} `{UserRepository R} (repo : R) (r : Request) :
  Values_Get (Query r) "id" = "" →
  findUserHandler repo r
    = (repo, {| status := 400; body := ErrorText "Missing id parameter" |})
  ∧ deleteUserHandler repo r
    = (repo, {| status := 400; body := ErrorText "Missing id parameter" |}).
Proof.
  intros Hid. unfold findUserHandler, deleteUserHandler. cbv zeta.
  by rewrite Hid.
Qed.

Lemma missing_id_rejected_witness :
  Values_Get (Query (mkRequest {[ "name" := ["Alice"] ]})) "id" = ""
  ∧ findUserHandler just_alice (mkRequest {[ "name" := ["Alice"] ]})
    = (just_alice, http_Error "Missing id parameter" 400)
  ∧ deleteUserHandler just_alice (mkRequest {[ "name" := ["Alice"] ]})
    = (just_alice, http_Error "Missing id parameter" 400).
Proof.
  split; [reflexivity|].
  apply (missing_id_rejected just_alice (mkRequest {[ "name" := ["Alice"] ]})).
  reflexivity.
Defined.

(** X11. The list handler, over any repository, takes no parameter: with
    any request, an error of [List] becomes 500 with the error's text,
    and a nil error becomes 200 with the returned users as JSON. *)
Theorem list_handler_mapping {R : Type} `{UserRepository R} (repo repo' : R)
    (r : Request) (userList : list User) :
  (∀ err, List repo = (repo', (userList, Some err)) →
     listUsersHandler repo r
       = (repo', {| status := 500; body := ErrorText (Error err) |}))
  ∧ (List repo = (repo', (userList, None)) →
     listUsersHandler repo r
       = (repo', {| status := 200; body := JsonUsers userList |})).
Proof.
  unfold listUsersHandler. split; [intros err Hcall|intros Hcall]; by rewrite Hcall.
Qed.

Lemma list_handler_mapping_witness :
  @List _ (Scripted (λ _, Some NotFound)) [] = ([OpList], ([], Some NotFound))
  ∧ listUsersHandler (H := Scripted (λ _, Some NotFound)) [] (mkQuery "" "" "")
    = ([OpList], http_Error "user not found" 500)
  ∧ List just_alice = (just_alice, ([alice], None))
  ∧ listUsersHandler just_alice (mkQuery "" "" "")
    = (just_alice, Encode (JsonUsers [alice])).
Proof.
  split; [reflexivity|]. split; [|split; [reflexivity|]].
  - exact (proj1 (list_handler_mapping (H := Scripted (λ _, Some NotFound))
                    [] [OpList] (mkQuery "" "" "") []) NotFound eq_refl).
  - exact (proj2 (list_handler_mapping just_alice just_alice (mkQuery "" "" "")
                    [alice]) eq_refl).
Defined.


(** X13. The statuses a route can answer with, over any repository and
    any request: create 201, 400 or 500; list 200 or 500; find 200, 400
    or 404; update and delete 200, 400 or 500. *)
Theorem statuses_of_routes {R : Type} `{UserRepository R} (route : Route)
    (repo : R) (r : Request) :
  status (serve route repo r).2 ∈
    match route with
    | RouteCreate => [201; 400; 500]
    | RouteList => [200; 500]
    | RouteFind => [200; 400; 404]
    | RouteUpdate | RouteDelete => [200; 400; 500]
    end%Z.
Proof.
  destruct route; simpl;
    unfold createUserHandler, listUsersHandler, findUserHandler,
      updateUserHandler, deleteUserHandler; cbv zeta.
  - destruct (_ || _); [set_solver|].
    destruct (strconv_Atoi _) as [age|nerr]; [|set_solver].
    destruct (Create _ repo) as [repo' [err|]]; set_solver.
  - destruct (List repo) as [repo' [userList [err|]]]; set_solver.
  - destruct (bool_decide _); [set_solver|].
    destruct (Find _ repo) as [repo' [user [err|]]]; set_solver.
  - destruct (_ || _); [set_solver|].
    destruct (strconv_Atoi _) as [age|nerr]; [|set_solver].
    destruct (Update _ repo) as [repo' [err|]]; set_solver.
  - destruct (bool_decide _); [set_solver|].
    destruct (Delete _ repo) as [repo' [err|]]; set_solver.
Qed.

(** X14. Serving one request costs the repository at most one call,
    whatever the repository answers.  No call is made exactly when the
    response is 400.  Otherwise the one call is of the method that belongs
    to the route and (list apart) about the id of the query, and the
    response carries an error text exactly when that call returned an
    error, the text being the error's own. *)
Theorem handler_calls_its_method_once (answer : Op → option error) (route : Route)
    (calls : list Op) (r : Request) :
  let res := serve (H := Scripted answer) route calls r in
  (status res.2 = 400%Z ∧ res.1 = calls)
  ∨ (status res.2 ≠ 400%Z
     ∧ ∃ op, res.1 = calls ++ [op]
         ∧ route_of_op op = route
         ∧ answer op = match body res.2 with ErrorText msg => Some (errors_New msg) | _ => None end
         ∧ (route ≠ RouteList → op_id op = Some (Values_Get (Query r) "id"))).
Proof.
  destruct route; simpl;
    unfold createUserHandler, listUsersHandler, findUserHandler,
      updateUserHandler, deleteUserHandler; cbv zeta; simpl.
  - destruct (_ || _); [by left|].
    destruct (strconv_Atoi _) as [age|nerr]; [|by left]. right.
    destruct (answer _) as [[msg]|] eqn:Hans; simpl;
      (split; [done|]; eexists; split; [reflexivity|]; split; [reflexivity|];
       split; [by rewrite Hans|done]).
  - right. destruct (answer _) as [[msg]|] eqn:Hans; simpl;
      (split; [done|]; eexists; split; [reflexivity|]; split; [reflexivity|];
       split; [by rewrite Hans|done]).
  - destruct (bool_decide _); [by left|]. right.
    destruct (answer _) as [[msg]|] eqn:Hans; simpl;
      (split; [done|]; eexists; split; [reflexivity|]; split; [reflexivity|];
       split; [by rewrite Hans|done]).
  - destruct (_ || _); [by left|].
    destruct (strconv_Atoi _) as [age|nerr]; [|by left]. right.
    destruct (answer _) as [[msg]|] eqn:Hans; simpl;
      (split; [done|]; eexists; split; [reflexivity|]; split; [reflexivity|];
       split; [by rewrite Hans|done]).
  - destruct (bool_decide _); [by left|]. right.
    destruct (answer _) as [[msg]|] eqn:Hans; simpl;
      (split; [done|]; eexists; split; [reflexivity|]; split; [reflexivity|];
       split; [by rewrite Hans|done]).
Qed.

Lemma handler_calls_its_method_once_witness :
  let res := serve (H := Scripted (λ _, Some AlreadyExists)) RouteCreate
               [OpList] (mkQuery "1" "Alice" "30") in
  res = ([OpList; OpCreate alice], http_Error "user already exists" 500)
  ∧ ((status res.2 = 400%Z ∧ res.1 = [OpList])
     ∨ (status res.2 ≠ 400%Z
        ∧ ∃ op, res.1 = [OpList] ++ [op]
            ∧ route_of_op op = RouteCreate
            ∧ Some AlreadyExists
              = match body res.2 with
                | ErrorText msg => Some (errors_New msg)
                | _ => None
                end
            ∧ (RouteCreate ≠ RouteList →
               op_id op = Some (Values_Get (Query (mkQuery "1" "Alice" "30")) "id")))).
Proof.
  intros res. split; [reflexivity|].
  exact (handler_calls_its_method_once (λ _, Some AlreadyExists) RouteCreate
           [OpList] (mkQuery "1" "Alice" "30")).
Defined.

(* ===================================================================== *)
(** ** The handlers on the in-memory store *)
(* ===================================================================== *)

Section InMemoryHandlers.

Implicit Types (repo : InMemoryUserRepository.t) (r : Request).

(** What serving a request does to the entries of the store: nothing, or
    the entry under the query's id is set to a validated record with that
    id, or it is removed. *)
Lemma serve_entries route repo r :
  (serve route repo r).1 = repo
  ∨ (∃ user, validated user
       ∧ (serve route repo r).1 = mk (<[ID user := user]> (users repo)))
  ∨ (∃ id, (serve route repo r).1 = mk (delete id (users repo))).
Proof.
  destruct route; simpl;
    unfold createUserHandler, listUsersHandler, findUserHandler,
      updateUserHandler, deleteUserHandler; cbv zeta; simpl.
  - destruct (_ || _) eqn:Hcheck; [by left|].
    destruct (strconv_Atoi _) as [age|nerr] eqn:Hparse; [|by left].
    apply orb_false_elim in Hcheck as [[Hid Hname]%orb_false_elim _].
    apply bool_decide_eq_false in Hid, Hname.
    apply strconv_Atoi_range in Hparse.
    unfold InMemoryUserRepository.Create. simpl.
    destruct (users repo !! _); simpl; [by left|].
    right; left.
    by exists {| ID := Values_Get (Query r) "id";
                 Name := Values_Get (Query r) "name"; Age := age |}.
  - by left.
  - destruct (bool_decide _); [by left|].
    unfold InMemoryUserRepository.Find. destruct (users repo !! _); by left.
  - destruct (_ || _) eqn:Hcheck; [by left|].
    destruct (strconv_Atoi _) as [age|nerr] eqn:Hparse; [|by left].
    apply orb_false_elim in Hcheck as [[Hid Hname]%orb_false_elim _].
    apply bool_decide_eq_false in Hid, Hname.
    apply strconv_Atoi_range in Hparse.
    unfold InMemoryUserRepository.Update. simpl.
    destruct (users repo !! _); simpl; [|by left].
    right; left.
    by exists {| ID := Values_Get (Query r) "id";
                 Name := Values_Get (Query r) "name"; Age := age |}.
  - destruct (bool_decide _); [by left|].
    unfold InMemoryUserRepository.Delete.
    destruct (users repo !! _); simpl; [|by left].
    right; right. by eexists.
Qed.

End InMemoryHandlers.

(** X15. Whatever requests have been served since [main] created the
    store, every record in it sits under its own [ID], has a non-empty
    [ID] and a non-empty [Name], and an [Age] that is a 64-bit [int]. *)
Theorem served_records_are_validated (repo : InMemoryUserRepository.t) :
  served repo →
  ∀ k user, users repo !! k = Some user → ID user = k ∧ validated user.
Proof.
  induction 1 as [|route repo r _ IH]; intros k user.
  - simpl. by rewrite lookup_empty.
  - destruct (serve_entries route repo r)
      as [->|[(new & Hnew & ->)|(id & ->)]]; simpl.
    + apply IH.
    + rewrite lookup_insert. case_decide; [|apply IH].
      intros [= <-]. by subst k.
    + rewrite lookup_delete. case_decide; [done|apply IH].
Qed.

Lemma served_records_are_validated_witness :
  let repo := (serve RouteCreate NewInMemoryUserRepository (mkQuery "1" "Alice" "30")).1 in
  served repo
  ∧ users repo !! "1" = Some alice
  ∧ ID alice = "1" ∧ validated alice.
Proof.
  intros repo.
  assert (served repo) as Hserved by (apply served_request, served_new).
  split; [exact Hserved|]. split; [reflexivity|].
  exact (served_records_are_validated repo Hserved "1" alice eq_refl).
Defined.

(** X16. On the in-memory store, a request answered with a status of 400
    or above, and any request to the list or the find route, leaves the
    store exactly as it was. *)
Theorem failed_or_reading_request_changes_nothing (route : Route)
    (repo : InMemoryUserRepository.t) (r : Request) :
  (400 ≤ status (serve route repo r).2)%Z ∨ route = RouteList ∨ route = RouteFind →
  (serve route repo r).1 = repo.
Proof.
  destruct route; simpl;
    unfold createUserHandler, listUsersHandler, findUserHandler,
      updateUserHandler, deleteUserHandler; cbv zeta; simpl.
  - destruct (_ || _); [done|].
    destruct (strconv_Atoi _) as [age|nerr]; [|done].
    unfold InMemoryUserRepository.Create.
    destruct (users repo !! _); simpl; [done|].
    unfold StatusCreated. intros [?|[?|?]]; [lia|done..].
  - done.
  - destruct (bool_decide _); [done|].
    unfold InMemoryUserRepository.Find. by destruct (users repo !! _).
  - destruct (_ || _); [done|].
    destruct (strconv_Atoi _) as [age|nerr]; [|done].
    unfold InMemoryUserRepository.Update.
    destruct (users repo !! _); simpl; [|done].
    unfold StatusOK. intros [?|[?|?]]; [lia|done..].
  - destruct (bool_decide _); [done|].
    unfold InMemoryUserRepository.Delete.
    destruct (users repo !! _); simpl; [|done].
    unfold StatusOK. intros [?|[?|?]]; [lia|done..].
Qed.

Lemma failed_or_reading_request_changes_nothing_witness :
  (400 ≤ status (serve RouteCreate just_alice (mkQuery "1" "Bob" "31")).2)%Z
  ∧ (serve RouteCreate just_alice (mkQuery "1" "Bob" "31")).1 = just_alice
  ∧ (serve RouteFind just_alice (mkQuery "1" "" "")).1 = just_alice.
Proof.
  split; [by vm_compute|]. split.
  - apply (failed_or_reading_request_changes_nothing RouteCreate just_alice
             (mkQuery "1" "Bob" "31")). left. by vm_compute.
  - apply (failed_or_reading_request_changes_nothing RouteFind just_alice
             (mkQuery "1" "" "")). right; right; reflexivity.
Defined.

(** X17. The find handler on the in-memory store, for a non-empty [id]:
    200 with the record stored under [id] as JSON when there is one, 404
    with "user not found" when there is none. *)
Theorem find_handler_in_memory (repo : InMemoryUserRepository.t) (r : Request) :
  Values_Get (Query r) "id" ≠ "" →
  (findUserHandler repo r).2
  = match users repo !! Values_Get (Query r) "id" with
    | Some user => {| status := 200; body := JsonUser user |}
    | None => {| status := 404; body := ErrorText "user not found" |}
    end.
Proof.
  intros Hid. rewrite findUserHandler_valid by done. simpl.
  unfold InMemoryUserRepository.Find.
  by destruct (users repo !! _).
Qed.

Lemma find_handler_in_memory_witness :
  Values_Get (Query (mkQuery "1" "" "")) "id" ≠ ""
  ∧ (findUserHandler just_alice (mkQuery "1" "" "")).2
    = {| status := 200; body := JsonUser alice |}
  ∧ (findUserHandler NewInMemoryUserRepository (mkQuery "1" "" "")).2
    = {| status := 404; body := ErrorText "user not found" |}.
Proof.
  split; [by vm_compute|]. split.
  - apply (find_handler_in_memory just_alice (mkQuery "1" "" "")). by vm_compute.
  - apply (find_handler_in_memory NewInMemoryUserRepository (mkQuery "1" "" "")).
    by vm_compute.
Defined.

(** X18. The life of one record over HTTP.  On a store without [id], for
    requests carrying a non-empty [id], non-empty names and ages that
    parse: create answers 201, find then answers 200 with the created
    record, update answers 200, find then answers 200 with the updated
    record, delete answers 200, find then answers 404; and the store ends
    as it began. *)
Theorem record_lifecycle_over_HTTP (repo : InMemoryUserRepository.t)
    (rc rf ru rd : Request) (id name name' : string) (age age' : Z) :
  users repo !! id = None →
  id ≠ "" → name ≠ "" → name' ≠ "" →
  Values_Get (Query rc) "id" = id → Values_Get (Query rc) "name" = name →
  strconv_Atoi (Values_Get (Query rc) "age") = inl age →
  Values_Get (Query ru) "id" = id → Values_Get (Query ru) "name" = name' →
  strconv_Atoi (Values_Get (Query ru) "age") = inl age' →
  Values_Get (Query rf) "id" = id → Values_Get (Query rd) "id" = id →
  let created := createUserHandler repo rc in
  let found := findUserHandler created.1 rf in
  let updated := updateUserHandler found.1 ru in
  let found_again := findUserHandler updated.1 rf in
  let deleted := deleteUserHandler found_again.1 rd in
  let gone := findUserHandler deleted.1 rf in
  [created.2; found.2; updated.2; found_again.2; deleted.2; gone.2]
  = [ {| status := 201; body := NoBody |};
      {| status := 200; body := JsonUser {| ID := id; Name := name; Age := age |} |};
      {| status := 200; body := NoBody |};
      {| status := 200; body := JsonUser {| ID := id; Name := name'; Age := age' |} |};
      {| status := 200; body := NoBody |};
      {| status := 404; body := ErrorText "user not found" |} ]
  ∧ gone.1 = repo.
Proof.
  intros Hfree Hid Hname Hname' Hcid Hcname Hcage Huid Huname Huage Hfid Hdid.
  assert (Values_Get (Query rc) "id" ≠ "") as Hc1 by congruence.
  assert (Values_Get (Query rc) "name" ≠ "") as Hc2 by congruence.
  assert (Values_Get (Query ru) "id" ≠ "") as Hu1 by congruence.
  assert (Values_Get (Query ru) "name" ≠ "") as Hu2 by congruence.
  assert (Values_Get (Query rf) "id" ≠ "") as Hf1 by congruence.
  assert (Values_Get (Query rd) "id" ≠ "") as Hd1 by congruence.
  cbv zeta.
  rewrite (createUserHandler_valid repo rc age Hc1 Hc2 Hcage), Hcid, Hcname.
  simpl. rewrite Create_fresh by done. simpl.
  rewrite (findUserHandler_valid _ rf Hf1), Hfid. simpl.
  erewrite Find_present by (simpl; apply lookup_insert_eq). simpl.
  rewrite (updateUserHandler_valid _ ru age' Hu1 Hu2 Huage), Huid, Huname. simpl.
  erewrite Update_present by (simpl; apply lookup_insert_eq). simpl.
  rewrite insert_insert_eq.
  rewrite (findUserHandler_valid _ rf Hf1), Hfid. simpl.
  erewrite Find_present by (simpl; apply lookup_insert_eq). simpl.
  rewrite (deleteUserHandler_valid _ rd Hd1), Hdid. simpl.
  erewrite Delete_present by (simpl; apply lookup_insert_eq). simpl.
  rewrite delete_insert_id by done.
  rewrite (findUserHandler_valid _ rf Hf1), Hfid. simpl.
  rewrite Find_absent by done. simpl.
  split; [done|]. apply repo_eta.
Qed.

Lemma record_lifecycle_over_HTTP_witness :
  let created := createUserHandler just_alice (mkQuery "2" "Carol" "27") in
  let found := findUserHandler created.1 (mkQuery "2" "" "") in
  let updated := updateUserHandler found.1 (mkQuery "2" "Caroline" "+28") in
  let found_again := findUserHandler updated.1 (mkQuery "2" "" "") in
  let deleted := deleteUserHandler found_again.1 (mkQuery "2" "" "") in
  let gone := findUserHandler deleted.1 (mkQuery "2" "" "") in
  users just_alice !! "2" = None
  ∧ [created.2; found.2; updated.2; found_again.2; deleted.2; gone.2]
    = [ {| status := 201; body := NoBody |};
        {| status := 200; body := JsonUser carol |};
        {| status := 200; body := NoBody |};
        {| status := 200;
           body := JsonUser {| ID := "2"; Name := "Caroline"; Age := 28 |} |};
        {| status := 200; body := NoBody |};
        {| status := 404; body := ErrorText "user not found" |} ]
  ∧ gone.1 = just_alice.
Proof.
  split; [reflexivity|].
  apply (record_lifecycle_over_HTTP just_alice (mkQuery "2" "Carol" "27")
           (mkQuery "2" "" "") (mkQuery "2" "Caroline" "+28") (mkQuery "2" "" "")
           "2" "Carol" "Caroline" 27 28); by vm_compute.
Defined.
